(** * pytest_httpserver.blocking_http_server

    A shallow embedding of [BlockingRequestHandler] and [BlockingHttpServer]
    (src/pytest_httpserver/blocking_http_server.py) together with the part of
    Python's [queue.Queue] that the module relies on.

    The two methods of the server run on different threads and meet through
    three shared objects (the request queue, the dictionary of handler queues
    and the response queue of every handler).  Each method is therefore cut
    into its atomic accesses to the shared objects: a thread is a program
    counter, a step is one access, and a system execution is an arbitrary
    interleaving of the steps of all threads. *)

From stdpp Require Import base option list gmap strings.
From Stdlib Require Import ZArith Lia.

Open Scope Z_scope.

(** ** queue.Queue *)

Module Queue.

(** [Queue(maxsize=0)]: [maxsize <= 0] means that the queue is unbounded. *)
Record t (A : Type) := mk { maxsize : Z; items : list A }.
Arguments mk {A} _ _.
Arguments maxsize {A} _.
Arguments items {A} _.

(** [Queue()] *)
Definition new {A : Type} : t A := mk 0 [].

Definition qsize {A : Type} (q : t A) : Z := Z.of_nat (length (items q)).

(** [put_nowait(item)] is [put(item, block=False)]: it raises [Full]
    (here [None]) when [maxsize > 0] and [qsize() >= maxsize], and appends
    the item otherwise.  It never waits. *)
Definition put_nowait {A : Type} (q : t A) (x : A) : option (t A) :=
  if (0 <? maxsize q) && (maxsize q <=? qsize q)
  then None
  else Some (mk (maxsize q) (items q ++ [x])).

(** The four ways in which [get(timeout=t)] can be observed. *)
Inductive get_result (A : Type) :=
| Got (x : A) (q' : t A)   (* an item is returned *)
| Empty                    (* [raise Empty]: the wait timed out *)
| BadTimeout               (* [raise ValueError]: negative timeout *)
| Blocked.                 (* still waiting *)
Arguments Got {A} _ _.
Arguments Empty {A}.
Arguments BadTimeout {A}.
Arguments Blocked {A}.

(** [get(block=True, timeout=t)] observed after the caller has been waiting
    for [elapsed] time units: a negative timeout is rejected first, then an
    available item is returned, and an empty queue raises [Empty] once the
    remaining time [timeout - elapsed] is not positive. *)
Definition get {A : Type} (q : t A) (timeout elapsed : Z) : get_result A :=
  if timeout <? 0 then BadTimeout
  else match items q with
       | x :: rest => Got x (mk (maxsize q) rest)
       | [] => if timeout <=? elapsed then Empty else Blocked
       end.

End Queue.

(** ** Values of the program *)

(** A werkzeug [Request] is hashed and compared by identity; it is
    represented by that identity. *)
Definition Request := nat.

(** Reference to a [Queue[BlockingRequestHandler]] object. *)
Definition addr := nat.

(** Reference to a [BlockingRequestHandler] object. *)
Definition handler := nat.

Inductive exn :=
| AssertionError (msg : string)
| KeyError (r : Request)
| ValueError (msg : string)
| Full.

Inductive outcome (A : Type) :=
| Return (a : A)
| Raise (e : exn).
Arguments Return {A} _.
Arguments Raise {A} _.

(** [str.upper()] on ASCII text. *)
Definition upper_ascii (c : Ascii.ascii) : Ascii.ascii :=
  let n := Ascii.nat_of_ascii c in
  if ((97 <=? n) && (n <=? 122))%nat then Ascii.ascii_of_nat (n - 32) else c.

Fixpoint upper (s : string) : string :=
  match s with
  | EmptyString => EmptyString
  | String c s' => String (upper_ascii c) (upper s')
  end.

(** ** HttpServerBase

    The base class lives in pytest_httpserver.httpserver, outside the module
    embedded here; the methods that [BlockingHttpServer] calls are taken as
    an interface. *)
Class HttpServerBase := {
  (** werkzeug [Response] *)
  Response : Type;
  (** [RequestMatcher] *)
  Matcher : Type;
  (** one entry of the list returned by [RequestMatcher.difference] *)
  DiffItem : Type;
  (** the matching arguments of [assert_request] other than [method]:
      uri, data, data_encoding, headers, query_string, header_value_matcher,
      json; they are handed to [create_matcher] unchanged *)
  Criteria : Type;
  (** [self.create_matcher(uri, method=..., ...)]; [inl msg] stands for the
      [ValueError] of an ill-formed expectation *)
  create_matcher : Criteria → string → string + Matcher;
  (** [matcher.difference(request)] *)
  difference : Matcher → Request → list DiffItem;
  (** [self.respond_nohandler(request)], as the response it returns *)
  respond_nohandler : Request → Response;
  (** [str(request)], [str(matcher)] and [str(diff)] as formatted by the
      f-strings *)
  str_request : Request → string;
  str_matcher : Matcher → string;
  str_diff : list DiffItem → string;
}.

Section BlockingHttpServer.

Context `{B : HttpServerBase}.

(** ** Shared objects *)

Record state := mkState {
  (** [self.timeout] *)
  timeout : Z;
  (** [self.request_queue] *)
  request_queue : Queue.t Request;
  (** [self.request_handlers]: the dictionary holds references *)
  request_handlers : gmap Request addr;
  (** the [Queue[BlockingRequestHandler]] objects, by reference *)
  handler_queues : list (Queue.t handler);
  (** the [BlockingRequestHandler] objects, by reference: each one is its
      [response_queue] *)
  handlers : list (Queue.t Response);
  (** Modelled from the spec: [HttpServerBase.add_assertion] is not part of
      the embedded module; the spec calls its target "a shared, inspectable
      error sink", modelled as the list of recorded errors. *)
  assertions : list exn;
}.

Definition set_request_queue (q : Queue.t Request) (σ : state) : state :=
  mkState (timeout σ) q (request_handlers σ) (handler_queues σ)
          (handlers σ) (assertions σ).
Definition set_request_handlers (d : gmap Request addr) (σ : state) : state :=
  mkState (timeout σ) (request_queue σ) d (handler_queues σ)
          (handlers σ) (assertions σ).
Definition set_handler_queues (hq : list (Queue.t handler)) (σ : state) : state :=
  mkState (timeout σ) (request_queue σ) (request_handlers σ) hq
          (handlers σ) (assertions σ).
Definition set_handlers (hs : list (Queue.t Response)) (σ : state) : state :=
  mkState (timeout σ) (request_queue σ) (request_handlers σ)
          (handler_queues σ) hs (assertions σ).
(** Modelled from the spec: [add_assertion] records the error in the sink. *)
Definition add_assertion (e : exn) (σ : state) : state :=
  mkState (timeout σ) (request_queue σ) (request_handlers σ)
          (handler_queues σ) (handlers σ) (assertions σ ++ [e]).

(** [BlockingHttpServer.__init__(self, timeout=30, **kwargs)] *)
Definition default_timeout : Z := 30.

Definition BlockingHttpServer_init (timeout : option Z) : state :=
  mkState (default default_timeout timeout) Queue.new ∅ [] [] [].

(** ** BlockingRequestHandler *)

(** [BlockingRequestHandler()]: a new object whose [response_queue] is
    [Queue()]; the reference to it is returned. *)
Definition BlockingRequestHandler_init (σ : state) : handler * state :=
  (length (handlers σ), set_handlers (handlers σ ++ [Queue.new]) σ).

(** [respond_with_response(self, response)]:
    [self.response_queue.put_nowait(response)].  [None] only for a
    reference that denotes no object. *)
Definition respond_with_response (h : handler) (resp : Response) (σ : state)
  : option (outcome state) :=
  q ← handlers σ !! h;
  Some match Queue.put_nowait q resp with
       | None => Raise Full
       | Some q' => Return (set_handlers (<[h := q']> (handlers σ)) σ)
       end.

(** ** Error messages *)

Definition msg_wait_timed_out (m : Matcher) : string :=
  "Waiting for request " +:+ str_matcher m +:+ " timed out".
Definition msg_does_not_match (m : Matcher) (diff : list DiffItem) : string :=
  "Request " +:+ str_matcher m +:+ " does not match: " +:+ str_diff diff.
Definition msg_no_response (r : Request) : string :=
  "No response for request: " +:+ str_request r.
Definition msg_bad_timeout : string := "'timeout' must be a non-negative number".

(** ** Observable steps

    Every step of a thread is labelled by what it did to the shared
    objects. *)
Inductive event :=
(* dispatch *)
| EvRegister (r : Request) (a : addr)
| EvPublish (r : Request)
| EvLookup (r : Request) (a : addr)
| EvHandler (r : Request) (h : handler)
| EvNoHandler (r : Request)
| EvResponse (r : Request) (h : handler) (resp : Response)
| EvNoResponse (r : Request) (h : handler)
| EvDeregister (r : Request)
(* assert_request *)
| EvMatcher (m : Matcher)
| EvPop (r : Request)
| EvNoRequest
| EvNew (r : Request) (h : handler) (a : addr)
| EvDeliver (r : Request) (h : handler)
(* respond_with_response *)
| EvRespond (h : handler) (resp : Response)
(* an exception other than the ones above *)
| EvFail (e : exn).

(** ** BlockingHttpServer.dispatch

    Program points of [dispatch(request)]. *)
Inductive dpc :=
| DStart                           (* before line 139 *)
| DRegistered                      (* inside [try], before line 141 *)
| DAwaitHandler                    (* line 144, before the dictionary lookup *)
| DGetHandler (a : addr)           (* line 144, inside [get] *)
| DGetResponse (h : handler)       (* line 149, inside [get] *)
| DFinally (o : outcome Response)  (* line 155, with the pending result *)
| DDone (o : outcome Response).    (* the call has terminated *)

(** One step of [dispatch(r)] from program point [pc] in the shared state
    [σ]; [elapsed] is the time the thread has spent in its current wait.
    [None]: the thread cannot move (it is waiting, or it has terminated). *)
Definition dispatch_step (elapsed : Z) (σ : state) (r : Request) (pc : dpc)
  : option (event * state * dpc) :=
  match pc with
  | DStart =>
      (* self.request_handlers[request] = Queue() *)
      let a := length (handler_queues σ) in
      let σ1 := set_handler_queues (handler_queues σ ++ [Queue.new]) σ in
      Some (EvRegister r a,
            set_request_handlers (<[r := a]> (request_handlers σ1)) σ1,
            DRegistered)
  | DRegistered =>
      (* self.request_queue.put_nowait(request) *)
      match Queue.put_nowait (request_queue σ) r with
      | Some q' => Some (EvPublish r, set_request_queue q' σ, DAwaitHandler)
      | None => Some (EvFail Full, σ, DFinally (Raise Full))
      end
  | DAwaitHandler =>
      (* self.request_handlers[request] *)
      match request_handlers σ !! r with
      | Some a => Some (EvLookup r a, σ, DGetHandler a)
      | None => Some (EvFail (KeyError r), σ, DFinally (Raise (KeyError r)))
      end
  | DGetHandler a =>
      (* .get(timeout=self.timeout) / except Empty: return respond_nohandler *)
      q ← handler_queues σ !! a;
      match Queue.get q (timeout σ) elapsed with
      | Queue.Got h q' =>
          Some (EvHandler r h,
                set_handler_queues (<[a := q']> (handler_queues σ)) σ,
                DGetResponse h)
      | Queue.Empty =>
          Some (EvNoHandler r, σ, DFinally (Return (respond_nohandler r)))
      | Queue.BadTimeout =>
          Some (EvFail (ValueError msg_bad_timeout), σ,
                DFinally (Raise (ValueError msg_bad_timeout)))
      | Queue.Blocked => None
      end
  | DGetResponse h =>
      (* return request_handler.response_queue.get(timeout=self.timeout)
         / except Empty: add_assertion(assertion); raise assertion *)
      q ← handlers σ !! h;
      match Queue.get q (timeout σ) elapsed with
      | Queue.Got resp q' =>
          Some (EvResponse r h resp,
                set_handlers (<[h := q']> (handlers σ)) σ,
                DFinally (Return resp))
      | Queue.Empty =>
          let assertion := AssertionError (msg_no_response r) in
          Some (EvNoResponse r h, add_assertion assertion σ,
                DFinally (Raise assertion))
      | Queue.BadTimeout =>
          Some (EvFail (ValueError msg_bad_timeout), σ,
                DFinally (Raise (ValueError msg_bad_timeout)))
      | Queue.Blocked => None
      end
  | DFinally o =>
      (* finally: del self.request_handlers[request] *)
      match request_handlers σ !! r with
      | Some _ =>
          Some (EvDeregister r,
                set_request_handlers (delete r (request_handlers σ)) σ,
                DDone o)
      | None => Some (EvFail (KeyError r), σ, DDone (Raise (KeyError r)))
      end
  | DDone _ => None
  end.

(** ** BlockingHttpServer.assert_request

    The arguments of one call: the matching criteria, [method] and
    [timeout]. *)
Record call := mkCall {
  criteria : Criteria;
  method : string;
  call_timeout : Z;
}.

(** [timeout: int = 30] *)
Definition default_call_timeout : Z := 30.

Definition assert_request_call (c : Criteria) (method : string)
    (timeout : option Z) : call :=
  mkCall c method (default default_call_timeout timeout).

(** Program points of [assert_request]. *)
Inductive apc :=
| AStart                                     (* before line 98 *)
| AWait (m : Matcher)                        (* line 110, inside [get] *)
| AGot (m : Matcher) (r : Request)           (* lines 114-118, before the lookup *)
| ADeliver (m : Matcher) (r : Request) (diff : list DiffItem)
           (h : handler) (a : addr)          (* line 118, before [put_nowait] *)
| ARespond (m : Matcher) (r : Request) (diff : list DiffItem)
           (h : handler)                     (* line 121 *)
| ADone (o : outcome handler).               (* the call has terminated *)

Definition assert_request_step (elapsed : Z) (σ : state) (c : call) (pc : apc)
  : option (event * state * apc) :=
  match pc with
  | AStart =>
      (* matcher = self.create_matcher(uri, method=method.upper(), ...) *)
      match create_matcher (criteria c) (upper (method c)) with
      | inr m => Some (EvMatcher m, σ, AWait m)
      | inl msg => Some (EvFail (ValueError msg), σ, ADone (Raise (ValueError msg)))
      end
  | AWait m =>
      (* request = self.request_queue.get(timeout=timeout)
         / except Empty: raise AssertionError(...) *)
      match Queue.get (request_queue σ) (call_timeout c) elapsed with
      | Queue.Got r q' => Some (EvPop r, set_request_queue q' σ, AGot m r)
      | Queue.Empty =>
          Some (EvNoRequest, σ,
                ADone (Raise (AssertionError (msg_wait_timed_out m))))
      | Queue.BadTimeout =>
          Some (EvFail (ValueError msg_bad_timeout), σ,
                ADone (Raise (ValueError msg_bad_timeout)))
      | Queue.Blocked => None
      end
  | AGot m r =>
      (* diff = matcher.difference(request)
         request_handler = BlockingRequestHandler()
         self.request_handlers[request] *)
      let diff := difference m r in
      let '(h, σ1) := BlockingRequestHandler_init σ in
      match request_handlers σ1 !! r with
      | Some a => Some (EvNew r h a, σ1, ADeliver m r diff h a)
      | None => Some (EvFail (KeyError r), σ1, ADone (Raise (KeyError r)))
      end
  | ADeliver m r diff h a =>
      (* .put_nowait(request_handler); if diff: ... ; return request_handler *)
      q ← handler_queues σ !! a;
      match Queue.put_nowait q h with
      | Some q' =>
          Some (EvDeliver r h,
                set_handler_queues (<[a := q']> (handler_queues σ)) σ,
                match diff with
                | [] => ADone (Return h)
                | _ :: _ => ARespond m r diff h
                end)
      | None => Some (EvFail Full, σ, ADone (Raise Full))
      end
  | ARespond m r diff h =>
      (* request_handler.respond_with_response(self.respond_nohandler(request))
         raise AssertionError(...) *)
      let resp := respond_nohandler r in
      o ← respond_with_response h resp σ;
      Some match o with
           | Return σ' =>
               (EvRespond h resp, σ',
                ADone (Raise (AssertionError (msg_does_not_match m diff))))
           | Raise e => (EvFail e, σ, ADone (Raise e))
           end
  | ADone _ => None
  end.

(** ** The threads together

    One connection thread per [dispatch] call, one thread per
    [assert_request] call, and the test code that answers through the
    handlers it holds. *)
Inductive actor :=
| Conn (i : nat)      (* the i-th [dispatch] call *)
| Asserter (j : nat)  (* the j-th [assert_request] call *)
| Caller.             (* code that calls [respond_with_response] *)

Record sys := mkSys {
  shared : state;
  dprocs : list (Request * dpc);
  aprocs : list (call * apc);
  trace : list (actor * event);
}.

(** What the scheduler lets happen next. *)
Inductive action :=
| ActDispatch (i : nat) (elapsed : Z)
| ActAssert (j : nat) (elapsed : Z)
| ActRespond (h : handler) (resp : Response).

(** An action that is not enabled leaves the system as it is. *)
Definition sys_step (s : sys) (act : action) : sys :=
  match act with
  | ActDispatch i elapsed =>
      match dprocs s !! i with
      | Some (r, pc) =>
          match dispatch_step elapsed (shared s) r pc with
          | Some (ev, σ', pc') =>
              mkSys σ' (<[i := (r, pc')]> (dprocs s)) (aprocs s)
                    (trace s ++ [(Conn i, ev)])
          | None => s
          end
      | None => s
      end
  | ActAssert j elapsed =>
      match aprocs s !! j with
      | Some (c, pc) =>
          match assert_request_step elapsed (shared s) c pc with
          | Some (ev, σ', pc') =>
              mkSys σ' (dprocs s) (<[j := (c, pc')]> (aprocs s))
                    (trace s ++ [(Asserter j, ev)])
          | None => s
          end
      | None => s
      end
  | ActRespond h resp =>
      match respond_with_response h resp (shared s) with
      | Some (Return σ') =>
          mkSys σ' (dprocs s) (aprocs s)
                (trace s ++ [(Caller, EvRespond h resp)])
      | Some (Raise e) =>
          mkSys (shared s) (dprocs s) (aprocs s)
                (trace s ++ [(Caller, EvFail e)])
      | None => s
      end
  end.

Definition run (s : sys) (sched : list action) : sys :=
  foldl sys_step s sched.

(** The enabled steps of the system, as a relation. *)
Inductive transition (s : sys) : sys → Prop :=
| tr_dispatch i el r pc ev σ' pc' :
    dprocs s !! i = Some (r, pc) →
    dispatch_step el (shared s) r pc = Some (ev, σ', pc') →
    transition s (mkSys σ' (<[i := (r, pc')]> (dprocs s)) (aprocs s)
                        (trace s ++ [(Conn i, ev)]))
| tr_assert j el c pc ev σ' pc' :
    aprocs s !! j = Some (c, pc) →
    assert_request_step el (shared s) c pc = Some (ev, σ', pc') →
    transition s (mkSys σ' (dprocs s) (<[j := (c, pc')]> (aprocs s))
                        (trace s ++ [(Asserter j, ev)]))
| tr_respond h resp σ' :
    respond_with_response h resp (shared s) = Some (Return σ') →
    transition s (mkSys σ' (dprocs s) (aprocs s)
                        (trace s ++ [(Caller, EvRespond h resp)]))
| tr_respond_fail h resp e :
    respond_with_response h resp (shared s) = Some (Raise e) →
    transition s (mkSys (shared s) (dprocs s) (aprocs s)
                        (trace s ++ [(Caller, EvFail e)])).

(** A server constructed with [timeout], the requests handed to [dispatch]
    and the calls made to [assert_request], none of them started yet. *)
Definition sys_init (timeout : option Z) (reqs : list Request)
    (calls : list call) : sys :=
  mkSys (BlockingHttpServer_init timeout)
        ((λ r, (r, DStart)) <$> reqs)
        ((λ c, (c, AStart)) <$> calls)
        [].

#[global] Instance actor_eq_dec : EqDecision actor.
Proof. solve_decision. Defined.

(** The requests that the trace shows as taken from the request queue. *)
Definition is_pop (x : actor * event) : option Request :=
  match x.2 with EvPop r => Some r | _ => None end.

Definition popped (tr : list (actor * event)) : list Request :=
  omap is_pop tr.

(** The steps of one thread, in order. *)
Definition hist (a : actor) (tr : list (actor * event)) : list event :=
  omap (λ x, if decide (x.1 = a) then Some x.2 else None) tr.

(** ** Invariants of the executions *)

(** Every queue of the program is built by [Queue()]. *)
Definition unbounded (σ : state) : Prop :=
  Queue.maxsize (request_queue σ) = 0
  ∧ Forall (λ q, Queue.maxsize q = 0) (handler_queues σ)
  ∧ Forall (λ q, Queue.maxsize q = 0) (handlers σ).

(** The program points of [dispatch] between line 139 and line 155. *)
Definition registered_at (pc : dpc) : bool :=
  match pc with
  | DStart | DDone _ => false
  | _ => true
  end.

(** The dictionary has an entry for [r] exactly while [dispatch(r)] is
    between line 139 and line 155. *)
Definition reg_ok (σ : state) (r : Request) (pc : dpc) : Prop :=
  if registered_at pc
  then is_Some (request_handlers σ !! r)
  else request_handlers σ !! r = None.

(** The handler that a call of [assert_request] holds. *)
Definition apc_handler (pc : apc) : option handler :=
  match pc with
  | ADeliver _ _ _ h _ | ARespond _ _ _ h | ADone (Return h) => Some h
  | _ => None
  end.

(** The requests of the [dispatch] calls that have not reached line 141. *)
Definition is_unpublished (x : Request * dpc) : option Request :=
  match x.2 with
  | DStart | DRegistered => Some x.1
  | _ => None
  end.

Definition unpublished (ds : list (Request * dpc)) : list Request :=
  omap is_unpublished ds.

(** The control flow of [dispatch(r)]: the steps a call has taken determine
    where it is. *)
Inductive dshape (r : Request) : list event → dpc → Prop :=
| ds_start : dshape r [] DStart
| ds_registered a : dshape r [EvRegister r a] DRegistered
| ds_await a : dshape r [EvRegister r a; EvPublish r] DAwaitHandler
| ds_get_handler a a' :
    dshape r [EvRegister r a; EvPublish r; EvLookup r a'] (DGetHandler a')
| ds_no_handler a a' :
    dshape r [EvRegister r a; EvPublish r; EvLookup r a'; EvNoHandler r]
           (DFinally (Return (respond_nohandler r)))
| ds_handler_bad_timeout a a' :
    dshape r [EvRegister r a; EvPublish r; EvLookup r a';
              EvFail (ValueError msg_bad_timeout)]
           (DFinally (Raise (ValueError msg_bad_timeout)))
| ds_get_response a a' h :
    dshape r [EvRegister r a; EvPublish r; EvLookup r a'; EvHandler r h]
           (DGetResponse h)
| ds_response a a' h resp :
    dshape r [EvRegister r a; EvPublish r; EvLookup r a'; EvHandler r h;
              EvResponse r h resp]
           (DFinally (Return resp))
| ds_no_response a a' h :
    dshape r [EvRegister r a; EvPublish r; EvLookup r a'; EvHandler r h;
              EvNoResponse r h]
           (DFinally (Raise (AssertionError (msg_no_response r))))
| ds_response_bad_timeout a a' h :
    dshape r [EvRegister r a; EvPublish r; EvLookup r a'; EvHandler r h;
              EvFail (ValueError msg_bad_timeout)]
           (DFinally (Raise (ValueError msg_bad_timeout)))
| ds_done evs o :
    dshape r evs (DFinally o) →
    dshape r (evs ++ [EvDeregister r]) (DDone o).

(** The control flow of one [assert_request] call. *)
Inductive ashape (c : call) : list event → apc → Prop :=
| as_start : ashape c [] AStart
| as_bad_matcher msg :
    create_matcher (criteria c) (upper (method c)) = inl msg →
    ashape c [EvFail (ValueError msg)] (ADone (Raise (ValueError msg)))
| as_wait m :
    create_matcher (criteria c) (upper (method c)) = inr m →
    ashape c [EvMatcher m] (AWait m)
| as_no_request m :
    create_matcher (criteria c) (upper (method c)) = inr m →
    ashape c [EvMatcher m; EvNoRequest]
           (ADone (Raise (AssertionError (msg_wait_timed_out m))))
| as_bad_timeout m :
    create_matcher (criteria c) (upper (method c)) = inr m →
    ashape c [EvMatcher m; EvFail (ValueError msg_bad_timeout)]
           (ADone (Raise (ValueError msg_bad_timeout)))
| as_got m r :
    create_matcher (criteria c) (upper (method c)) = inr m →
    ashape c [EvMatcher m; EvPop r] (AGot m r)
| as_unregistered m r :
    create_matcher (criteria c) (upper (method c)) = inr m →
    ashape c [EvMatcher m; EvPop r; EvFail (KeyError r)]
           (ADone (Raise (KeyError r)))
| as_deliver m r h a :
    create_matcher (criteria c) (upper (method c)) = inr m →
    ashape c [EvMatcher m; EvPop r; EvNew r h a]
           (ADeliver m r (difference m r) h a)
| as_match m r h a :
    create_matcher (criteria c) (upper (method c)) = inr m →
    difference m r = [] →
    ashape c [EvMatcher m; EvPop r; EvNew r h a; EvDeliver r h]
           (ADone (Return h))
| as_respond m r h a :
    create_matcher (criteria c) (upper (method c)) = inr m →
    difference m r ≠ [] →
    ashape c [EvMatcher m; EvPop r; EvNew r h a; EvDeliver r h]
           (ARespond m r (difference m r) h)
| as_mismatch m r h a :
    create_matcher (criteria c) (upper (method c)) = inr m →
    difference m r ≠ [] →
    ashape c [EvMatcher m; EvPop r; EvNew r h a; EvDeliver r h;
              EvRespond h (respond_nohandler r)]
           (ADone (Raise (AssertionError
                            (msg_does_not_match m (difference m r))))).

(** What holds of every execution. *)
Record sys_inv (topt : option Z) (calls : list call) (s : sys) : Prop := {
  inv_calls : (aprocs s).*1 = calls;
  inv_timeout : timeout (shared s) = default default_timeout topt;
  inv_unbounded : unbounded (shared s);
  inv_ashape : ∀ j c pc,
    aprocs s !! j = Some (c, pc) → ashape c (hist (Asserter j) (trace s)) pc;
  inv_ahist : ∀ j, aprocs s !! j = None → hist (Asserter j) (trace s) = [];
  inv_handlers : ∀ j c pc h,
    aprocs s !! j = Some (c, pc) → apc_handler pc = Some h →
    is_Some (handlers (shared s) !! h);
}.

(** What holds of every execution in which the requests handed to
    [dispatch] are distinct objects (the listener builds one [Request] per
    connection). *)
Record conn_inv (reqs : list Request) (s : sys) : Prop := {
  inv_reqs : (dprocs s).*1 = reqs;
  inv_reg : ∀ i r pc,
    dprocs s !! i = Some (r, pc) → reg_ok (shared s) r pc;
  inv_dshape : ∀ i r pc,
    dprocs s !! i = Some (r, pc) → dshape r (hist (Conn i) (trace s)) pc;
  inv_dhist : ∀ i, dprocs s !! i = None → hist (Conn i) (trace s) = [];
  inv_nodup :
    NoDup (Queue.items (request_queue (shared s)) ++ popped (trace s)
           ++ unpublished (dprocs s));
  inv_sink : ∀ i r h,
    (Conn i, EvNoResponse r h) ∈ trace s →
    AssertionError (msg_no_response r) ∈ assertions (shared s);
}.

(** Every reference that the program holds denotes an object. *)
Record heap_ok (σ : state) : Prop := {
  heap_dict : ∀ r a,
    request_handlers σ !! r = Some a → is_Some (handler_queues σ !! a);
  heap_items : ∀ a q h,
    handler_queues σ !! a = Some q → h ∈ Queue.items q →
    is_Some (handlers σ !! h);
}.

Definition dpc_ok (σ : state) (pc : dpc) : Prop :=
  match pc with
  | DGetHandler a => is_Some (handler_queues σ !! a)
  | DGetResponse h => is_Some (handlers σ !! h)
  | _ => True
  end.

Definition apc_ok (σ : state) (pc : apc) : Prop :=
  match pc with
  | ADeliver _ _ _ h a =>
      is_Some (handlers σ !! h) ∧ is_Some (handler_queues σ !! a)
  | ARespond _ _ _ h => is_Some (handlers σ !! h)
  | _ => True
  end.

Record alloc_inv (s : sys) : Prop := {
  alloc_heap : heap_ok (shared s);
  alloc_dprocs : ∀ i r pc, dprocs s !! i = Some (r, pc) → dpc_ok (shared s) pc;
  alloc_aprocs : ∀ j c pc, aprocs s !! j = Some (c, pc) → apc_ok (shared s) pc;
}.

(** The two stores of objects only grow. *)
Definition heap_le (σ σ' : state) : Prop :=
  (∀ a, is_Some (handler_queues σ !! a) → is_Some (handler_queues σ' !! a))
  ∧ (∀ h, is_Some (handlers σ !! h) → is_Some (handlers σ' !! h)).

(** How far a call has got. *)
Definition dpc_rank (pc : dpc) : nat :=
  match pc with
  | DStart => 0 | DRegistered => 1 | DAwaitHandler => 2 | DGetHandler _ => 3
  | DGetResponse _ => 4 | DFinally _ => 5 | DDone _ => 6
  end.

Definition apc_rank (pc : apc) : nat :=
  match pc with
  | AStart => 0 | AWait _ => 1 | AGot _ _ => 2 | ADeliver _ _ _ _ _ => 3
  | ARespond _ _ _ _ => 4 | ADone _ => 5
  end.

End BlockingHttpServer.

(** ** A concrete server

    Two requests, [POST /login] (request 0) and [GET /status] (request 1),
    and matchers that compare the path only. *)
Module Sample.

Definition path (r : Request) : string :=
  match r with
  | O => "/login"
  | _ => "/status"
  end.

#[export] Instance base : HttpServerBase := {|
  Response := string;
  Matcher := string * string;
  DiffItem := string;
  Criteria := string;
  create_matcher := λ uri meth,
    if String.eqb uri "" then inl "uri is empty" else inr (uri, meth);
  difference := λ m r, if String.eqb m.1 (path r) then [] else ["uri"];
  respond_nohandler := λ r, "500 No handler found for request " +:+ path r;
  str_request := path;
  str_matcher := λ m, m.2 +:+ " " +:+ m.1;
  str_diff := λ d, String.concat ", " d;
|}.

Definition login : call := assert_request_call "/login" "post" None.
Definition status : call := assert_request_call "/status" "get" (Some 5).

Definition s0 : sys := sys_init None [0%nat; 1%nat] [login; status].

(** [dispatch(0)] up to its wait for a handler. *)
Definition arrive (i : nat) : list action :=
  [ActDispatch i 0; ActDispatch i 0; ActDispatch i 0].

(** A whole [assert_request] call that finds a request in the queue. *)
Definition assert_now (j : nat) : list action :=
  [ActAssert j 0; ActAssert j 0; ActAssert j 0; ActAssert j 0; ActAssert j 0].

(** Nobody asserts within the server timeout; the request is asserted
    afterwards. *)
Definition sched_stale : list action :=
  arrive 0 ++ [ActDispatch 0 30; ActDispatch 0 0] ++ assert_now 0.

(** The request matches, the test never responds. *)
Definition sched_no_response : list action :=
  arrive 0 ++ assert_now 0
  ++ [ActDispatch 0 0; ActDispatch 0 30; ActDispatch 0 0].

(** The request matches and the test responds in time. *)
Definition sched_answered : list action :=
  arrive 0 ++ assert_now 0
  ++ [ActRespond 0%nat "200 ok"; ActDispatch 0 0; ActDispatch 0 1;
      ActDispatch 0 0].

(** [GET /status] arrives while the test asserts [/login]. *)
Definition sched_mismatch : list action :=
  arrive 1 ++ assert_now 0
  ++ [ActDispatch 1 0; ActDispatch 1 0; ActDispatch 1 0].

(** The test responds twice after [dispatch] has given up. *)
Definition sched_late : list action :=
  sched_no_response ++ [ActRespond 0%nat "200 ok"; ActRespond 0%nat "200 again"].

(** Both requests arrive and each is taken by one call. *)
Definition sched_two : list action :=
  arrive 0 ++ arrive 1 ++ assert_now 0 ++ assert_now 1.


(** Nobody asserts [POST /login] within the server timeout: [dispatch]
    answers with the no-handler response and returns. *)
Definition sched_gave_up : list action :=
  arrive 0 ++ [ActDispatch 0 30; ActDispatch 0 0].

(** Nobody asserts [GET /status] within the server timeout; afterwards the
    test asserts [/login]. *)
Definition sched_stale_mismatch : list action :=
  arrive 1 ++ [ActDispatch 1 30; ActDispatch 1 0] ++ assert_now 0.

End Sample.

(** ** What the trace shows of the queues

    The requests and responses that have gone through the queues and the
    objects that have been created, read off the trace, and the invariants
    that tie them to the shared objects. *)

Section Provenance.
Context `{B : HttpServerBase}.

(** The requests that the trace shows as put on the request queue. *)
Definition is_publish (x : actor * event) : option Request :=
  match x.2 with EvPublish r => Some r | _ => None end.

Definition published (tr : list (actor * event)) : list Request :=
  omap is_publish tr.

(** The responses pushed into the response queue of [h], by anyone. *)
Definition is_push (h : handler) (x : actor * event) : option Response :=
  match x.2 with
  | EvRespond h' resp => if decide (h' = h) then Some resp else None
  | _ => None
  end.

Definition pushed (h : handler) (tr : list (actor * event)) : list Response :=
  omap (is_push h) tr.

(** The responses that [dispatch] calls took from the response queue of
    [h]. *)
Definition is_take (h : handler) (x : actor * event) : option Response :=
  match x.2 with
  | EvResponse _ h' resp => if decide (h' = h) then Some resp else None
  | _ => None
  end.

Definition taken (h : handler) (tr : list (actor * event)) : list Response :=
  omap (is_take h) tr.

(** The handlers created for a registered request, and the queues created
    by line 139. *)
Definition is_new (x : actor * event) : option handler :=
  match x.2 with EvNew _ h _ => Some h | _ => None end.

Definition created (tr : list (actor * event)) : list handler :=
  omap is_new tr.

Definition is_register (x : actor * event) : option addr :=
  match x.2 with EvRegister _ a => Some a | _ => None end.

Definition registered (tr : list (actor * event)) : list addr :=
  omap is_register tr.

(** The queues are first in, first out, and nothing else touches them. *)
Record fifo_ok (σ : state) (tr : list (actor * event)) : Prop := {
  fifo_requests :
    published tr = popped tr ++ Queue.items (request_queue σ);
  fifo_responses : ∀ h q,
    handlers σ !! h = Some q → pushed h tr = taken h tr ++ Queue.items q;
  fifo_unborn : ∀ h,
    handlers σ !! h = None → pushed h tr = [] ∧ taken h tr = [];
}.

(** Where the references in the shared objects come from. *)
Record route_ok (σ : state) (tr : list (actor * event)) : Prop := {
  route_created : ∀ h, h ∈ created tr → is_Some (handlers σ !! h);
  route_created_nodup : NoDup (created tr);
  route_registered : ∀ a, a ∈ registered tr → is_Some (handler_queues σ !! a);
  route_registered_nodup : NoDup (registered tr);
  route_dict : ∀ r a,
    request_handlers σ !! r = Some a → ∃ i, (Conn i, EvRegister r a) ∈ tr;
  route_new : ∀ j r h a,
    (Asserter j, EvNew r h a) ∈ tr → ∃ i, (Conn i, EvRegister r a) ∈ tr;
  route_items : ∀ a q h,
    handler_queues σ !! a = Some q → h ∈ Queue.items q →
    ∃ j r, (Asserter j, EvNew r h a) ∈ tr ∧ (Asserter j, EvDeliver r h) ∈ tr;
  route_handler : ∀ i r h,
    (Conn i, EvHandler r h) ∈ tr → ∃ j, (Asserter j, EvDeliver r h) ∈ tr;
}.

(** The queue that a waiting [dispatch(r)] holds was registered for [r]. *)
Definition dpc_routed (tr : list (actor * event)) (r : Request) (pc : dpc)
  : Prop :=
  match pc with
  | DGetHandler a => ∃ i, (Conn i, EvRegister r a) ∈ tr
  | _ => True
  end.

Record route_inv (s : sys) : Prop := {
  route_shared : route_ok (shared s) (trace s);
  route_dprocs : ∀ i r pc,
    dprocs s !! i = Some (r, pc) → dpc_routed (trace s) r pc;
}.

(** What the sign of the server timeout lets the waits of [dispatch] do. *)
Definition wait_event_ok (t : Z) (ev : event) : Prop :=
  match ev with
  | EvNoHandler _ | EvHandler _ _ | EvResponse _ _ _ | EvNoResponse _ _ =>
      0 ≤ t
  | EvFail (ValueError _) => t < 0
  | _ => True
  end.

(** What the sign of its timeout lets the wait of [assert_request] do: the
    wait is the second step of a call. *)
Definition second_ok (c : call) (evs : list event) : Prop :=
  match evs with
  | EvMatcher _ :: EvFail _ :: _ => call_timeout c < 0
  | EvMatcher _ :: _ :: _ => 0 ≤ call_timeout c
  | _ => True
  end.

(** Every entry of the dictionary belongs to a [dispatch] call that is
    between line 139 and line 155. *)
Definition dict_owned (s : sys) : Prop :=
  ∀ r a,
    request_handlers (shared s) !! r = Some a →
    ∃ i pc, dprocs s !! i = Some (r, pc) ∧ registered_at pc = true.

(** Which thread takes which step: the steps of [dispatch] are taken by
    connection threads, those of [assert_request] by its callers, and a
    response is pushed by the test code or by [assert_request] itself. *)
Definition actor_ok (x : actor * event) : Prop :=
  match x.2 with
  | EvRegister _ _ | EvPublish _ | EvLookup _ _ | EvHandler _ _
  | EvNoHandler _ | EvResponse _ _ _ | EvNoResponse _ _ | EvDeregister _ =>
      ∃ i, x.1 = Conn i
  | EvMatcher _ | EvPop _ | EvNoRequest | EvNew _ _ _ | EvDeliver _ _ =>
      ∃ j, x.1 = Asserter j
  | EvRespond _ _ => x.1 = Caller ∨ ∃ j, x.1 = Asserter j
  | EvFail _ => True
  end.

End Provenance.

(** * Proofs *)

Section QueueFacts.
Context {A : Type}.
Implicit Types (q : Queue.t A) (x : A).

Lemma put_nowait_unbounded q x :
  Queue.maxsize q = 0 →
  Queue.put_nowait q x = Some (Queue.mk 0 (Queue.items q ++ [x])).
Proof. intros Hq. unfold Queue.put_nowait. rewrite Hq. reflexivity. Qed.

Lemma put_nowait_Some q x q' :
  Queue.put_nowait q x = Some q' →
  Queue.maxsize q' = Queue.maxsize q ∧ Queue.items q' = Queue.items q ++ [x].
Proof.
  unfold Queue.put_nowait. case_match; [done|].
  intros [= <-]. done.
Qed.

Lemma get_Got q t el x q' :
  Queue.get q t el = Queue.Got x q' →
  Queue.maxsize q' = Queue.maxsize q ∧ Queue.items q = x :: Queue.items q'.
Proof.
  unfold Queue.get. repeat case_match; try done.
  intros [= <- <-]. done.
Qed.

Lemma get_Empty q t el :
  Queue.get q t el = Queue.Empty ↔ 0 ≤ t ∧ Queue.items q = [] ∧ t ≤ el.
Proof.
  unfold Queue.get.
  destruct (Z.ltb_spec t 0), (Queue.items q), (Z.leb_spec t el);
    split; try done; try (intros (?&?&?); done || lia); intros _; repeat split; lia.
Qed.

Lemma get_Blocked q t el :
  Queue.get q t el = Queue.Blocked ↔ 0 ≤ t ∧ Queue.items q = [] ∧ el < t.
Proof.
  unfold Queue.get.
  destruct (Z.ltb_spec t 0), (Queue.items q), (Z.leb_spec t el);
    split; try done; try (intros (?&?&?); done || lia); intros _; repeat split; lia.
Qed.

End QueueFacts.

(** Case analysis on a step that has been taken. *)
Ltac step_inv H :=
  unfold dispatch_step, assert_request_step, respond_with_response,
    BlockingRequestHandler_init in H;
  repeat (simplify_option_eq; try case_match); simplify_eq.

Section Invariants.
Context `{B : HttpServerBase}.
Implicit Types (σ : state) (s : sys) (tr : list (actor * event)).

(** ** Traces *)

Lemma hist_snoc a tr a' ev :
  hist a (tr ++ [(a', ev)])
  = if decide (a' = a) then hist a tr ++ [ev] else hist a tr.
Proof.
  unfold hist. rewrite omap_app. simpl.
  case_decide; [done|]. by rewrite app_nil_r.
Qed.

Lemma elem_of_hist a ev tr : ev ∈ hist a tr ↔ (a, ev) ∈ tr.
Proof.
  unfold hist. rewrite list_elem_of_omap. split.
  - intros [[a' ev'] [Hin Heq]]. simpl in Heq. case_decide; simplify_eq. done.
  - intros Hin. exists (a, ev). split; [done|]. simpl. by rewrite decide_True.
Qed.

Lemma popped_snoc tr a ev :
  popped (tr ++ [(a, ev)])
  = popped tr ++ match ev with EvPop r => [r] | _ => [] end.
Proof.
  unfold popped. rewrite omap_app. f_equal. by destruct ev.
Qed.

Lemma elem_of_popped a r tr : (a, EvPop r) ∈ tr → r ∈ popped tr.
Proof.
  intros Hin. unfold popped. rewrite list_elem_of_omap. by exists (a, EvPop r).
Qed.

Lemma run_snoc s sched act : run s (sched ++ [act]) = sys_step (run s sched) act.
Proof. unfold run. by rewrite foldl_app. Qed.

Lemma run_app s sched1 sched2 :
  run s (sched1 ++ sched2) = run (run s sched1) sched2.
Proof. unfold run. by rewrite foldl_app. Qed.

(** ** What a step keeps *)

Lemma unbounded_init topt : unbounded (BlockingHttpServer_init topt).
Proof. repeat split; constructor. Qed.

Lemma Forall_unbounded_insert {A} (l : list (Queue.t A)) i q :
  Forall (λ q, Queue.maxsize q = 0) l → Queue.maxsize q = 0 →
  Forall (λ q, Queue.maxsize q = 0) (<[i := q]> l).
Proof. intros. by apply Forall_insert. Qed.

Lemma Forall_unbounded_new {A} (l : list (Queue.t A)) :
  Forall (λ q, Queue.maxsize q = 0) l →
  Forall (λ q, Queue.maxsize q = 0) (l ++ [Queue.new]).
Proof. intros. apply Forall_app. split; [done|]. by constructor. Qed.

Lemma respond_unbounded h resp σ σ' :
  unbounded σ → respond_with_response h resp σ = Some (Return σ') →
  unbounded σ'.
Proof.
  intros (Hq & Hhq & Hh) Hstep. step_inv Hstep.
  match goal with H : Queue.put_nowait _ _ = Some _ |- _ =>
    apply put_nowait_Some in H as [Hm _] end.
  repeat split; simpl; try done.
  apply Forall_unbounded_insert; [done|].
  rewrite Hm. eapply (Forall_lookup_1 _ _ _ _ Hh); eauto.
Qed.

Lemma respond_total h resp σ q :
  unbounded σ → handlers σ !! h = Some q →
  respond_with_response h resp σ
  = Some (Return (set_handlers
                    (<[h := Queue.mk 0 (Queue.items q ++ [resp])]> (handlers σ)) σ)).
Proof.
  intros (_ & _ & Hh) Hq. unfold respond_with_response. rewrite Hq. simpl.
  rewrite put_nowait_unbounded; [done|].
  eapply (Forall_lookup_1 _ _ _ _ Hh); eauto.
Qed.

Lemma dispatch_step_unbounded el σ r pc ev σ' pc' :
  unbounded σ → dispatch_step el σ r pc = Some (ev, σ', pc') → unbounded σ'.
Proof.
  intros (Hq & Hhq & Hh) Hstep. step_inv Hstep;
    repeat match goal with
    | H : Queue.put_nowait _ _ = Some _ |- _ => apply put_nowait_Some in H as [? ?]
    | H : Queue.get _ _ _ = Queue.Got _ _ |- _ => apply get_Got in H as [? ?]
    end;
    repeat split; simpl; try done; try congruence;
    try (apply Forall_unbounded_new; done);
    apply Forall_unbounded_insert; try done.
  - etrans; [eassumption|]. eapply (Forall_lookup_1 _ _ _ _ Hhq); eauto.
  - etrans; [eassumption|]. eapply (Forall_lookup_1 _ _ _ _ Hh); eauto.
Qed.

Lemma assert_request_step_unbounded el σ c pc ev σ' pc' :
  unbounded σ → assert_request_step el σ c pc = Some (ev, σ', pc') → unbounded σ'.
Proof.
  intros Hu Hstep. destruct pc; simpl in Hstep.
  - step_inv Hstep; done.
  - destruct Hu as (Hq & Hhq & Hh). step_inv Hstep; try done.
    match goal with H : Queue.get _ _ _ = Queue.Got _ _ |- _ =>
      apply get_Got in H as [? ?] end.
    repeat split; simpl; try done; congruence.
  - destruct Hu as (Hq & Hhq & Hh).
    step_inv Hstep; repeat split; simpl; try done;
      by apply Forall_unbounded_new.
  - destruct Hu as (Hq & Hhq & Hh). step_inv Hstep; try done.
    match goal with H : Queue.put_nowait _ _ = Some _ |- _ =>
      apply put_nowait_Some in H as [? ?] end.
    repeat split; simpl; try done.
    apply Forall_unbounded_insert; try done.
    etrans; [eassumption|]. eapply (Forall_lookup_1 _ _ _ _ Hhq); eauto.
  - destruct (respond_with_response h (respond_nohandler r) σ)
      as [[σ2|e]|] eqn:Hr; simplify_eq/=; [|done].
    eauto using respond_unbounded.
  - done.
Qed.

Lemma dispatch_step_timeout el σ r pc ev σ' pc' :
  dispatch_step el σ r pc = Some (ev, σ', pc') → timeout σ' = timeout σ.
Proof. intros Hstep. step_inv Hstep; done. Qed.

Lemma respond_timeout h resp σ σ' :
  respond_with_response h resp σ = Some (Return σ') → timeout σ' = timeout σ.
Proof. intros Hstep. step_inv Hstep; done. Qed.

Lemma assert_request_step_timeout el σ c pc ev σ' pc' :
  assert_request_step el σ c pc = Some (ev, σ', pc') → timeout σ' = timeout σ.
Proof.
  intros Hstep. destruct pc; simpl in Hstep; step_inv Hstep; done.
Qed.

Lemma dispatch_step_handlers el σ r pc ev σ' pc' h :
  dispatch_step el σ r pc = Some (ev, σ', pc') →
  is_Some (handlers σ !! h) → is_Some (handlers σ' !! h).
Proof.
  rewrite !lookup_lt_is_Some. intros Hstep.
  destruct pc; simpl in Hstep; step_inv Hstep; simpl; try done.
  by rewrite length_insert.
Qed.

Lemma respond_handlers h' resp σ σ' h :
  respond_with_response h' resp σ = Some (Return σ') →
  is_Some (handlers σ !! h) → is_Some (handlers σ' !! h).
Proof.
  rewrite !lookup_lt_is_Some. intros Hstep. step_inv Hstep. simpl.
  by rewrite length_insert.
Qed.

Lemma assert_request_step_handlers el σ c pc ev σ' pc' h :
  assert_request_step el σ c pc = Some (ev, σ', pc') →
  is_Some (handlers σ !! h) → is_Some (handlers σ' !! h).
Proof.
  rewrite !lookup_lt_is_Some. intros Hstep.
  destruct pc; simpl in Hstep; step_inv Hstep; simpl; try done.
  - rewrite length_app. simpl. lia.
  - rewrite length_app. simpl. lia.
  - by rewrite length_insert.
Qed.

Lemma assert_request_step_holds el σ c pc ev σ' pc' h :
  (∀ h0, apc_handler pc = Some h0 → is_Some (handlers σ !! h0)) →
  assert_request_step el σ c pc = Some (ev, σ', pc') →
  apc_handler pc' = Some h → is_Some (handlers σ' !! h).
Proof.
  intros Hold Hstep Hh. pose proof Hstep as Hcopy.
  destruct pc; simpl in Hcopy, Hold.
  - step_inv Hcopy; done.
  - step_inv Hcopy; done.
  - step_inv Hcopy; simpl in *; simplify_eq.
    apply lookup_lt_is_Some. rewrite length_app. simpl. lia.
  - eapply assert_request_step_handlers; [exact Hstep|].
    apply Hold. step_inv Hcopy; simpl in *; by simplify_eq.
  - step_inv Hcopy; done.
  - done.
Qed.

(** ** Control flow *)

Lemma dshape_step el σ r evs pc ev σ' pc' :
  dshape r evs pc → unbounded σ →
  (registered_at pc = true → is_Some (request_handlers σ !! r)) →
  dispatch_step el σ r pc = Some (ev, σ', pc') →
  dshape r (evs ++ [ev]) pc'.
Proof.
  intros Hs (Hq & _ & _) Hreg Hstep.
  inversion Hs; subst; simpl in Hstep, Hreg;
    try (destruct Hreg as [a0 Ha0]; [done|]);
    try rewrite (put_nowait_unbounded _ _ Hq) in Hstep;
    step_inv Hstep; simpl; try (by econstructor).
  all: match goal with |- dshape _ ?l (DDone ?o) =>
         by apply (ds_done _ (removelast l) o) end.
Qed.

Lemma ashape_step el σ c evs pc ev σ' pc' :
  ashape c evs pc → unbounded σ →
  assert_request_step el σ c pc = Some (ev, σ', pc') →
  ashape c (evs ++ [ev]) pc'.
Proof.
  intros Hs (Hq & Hhq & Hh) Hstep.
  inversion Hs; subst; simpl in Hstep.
  - step_inv Hstep; by econstructor.
  - done.
  - step_inv Hstep; by econstructor.
  - done.
  - done.
  - step_inv Hstep; by econstructor.
  - done.
  - destruct (handler_queues σ !! a) as [q|] eqn:Ha; simplify_eq/=.
    rewrite put_nowait_unbounded in Hstep
      by (eapply (Forall_lookup_1 _ _ _ _ Hhq); eauto).
    destruct (difference m r) eqn:Hd; simplify_eq/=.
    + by apply as_match.
    + rewrite <- Hd. eapply as_respond; [done|congruence].
  - done.
  - destruct (handlers σ !! h) as [q|] eqn:Ha;
      [|by unfold respond_with_response in Hstep; rewrite Ha in Hstep].
    rewrite (respond_total _ _ _ q) in Hstep by done.
    simplify_eq/=. by eapply as_mismatch.
  - done.
Qed.

(** ** Executions keep the invariants *)

Lemma sys_step_transition s act :
  sys_step s act = s ∨ transition s (sys_step s act).
Proof.
  destruct act as [i el|j el|h resp]; simpl.
  - destruct (dprocs s !! i) as [[r pc]|] eqn:Hi; [|by left].
    destruct (dispatch_step el (shared s) r pc) as [[[ev σ'] pc']|] eqn:Hst;
      [|by left].
    right. by econstructor.
  - destruct (aprocs s !! j) as [[c pc]|] eqn:Hj; [|by left].
    destruct (assert_request_step el (shared s) c pc) as [[[ev σ'] pc']|] eqn:Hst;
      [|by left].
    right. by econstructor.
  - destruct (respond_with_response h resp (shared s)) as [[σ'|e]|] eqn:Hr;
      [right; by econstructor|right; by econstructor|by left].
Qed.

Lemma run_invariant (P : sys → Prop) s0 :
  P s0 → (∀ s s', P s → transition s s' → P s') →
  ∀ sched, P (run s0 sched).
Proof.
  intros H0 Hstep sched.
  induction sched as [|act sched IH] using rev_ind; [done|].
  rewrite run_snoc.
  destruct (sys_step_transition (run s0 sched) act) as [->|Htr]; eauto.
Qed.

Lemma fst_insert_thread {T P} (l : list (T * P)) i x p p' :
  l !! i = Some (x, p) → (<[i := (x, p')]> l).*1 = l.*1.
Proof.
  intros Hi. rewrite list_fmap_insert. simpl.
  apply list_insert_id. by rewrite list_lookup_fmap, Hi.
Qed.

Lemma lookup_insert_thread {T P} (l : list (T * P)) i x p p' j y q :
  l !! i = Some (x, p) →
  <[i := (x, p')]> l !! j = Some (y, q) →
  (j = i ∧ y = x ∧ q = p') ∨ (j ≠ i ∧ l !! j = Some (y, q)).
Proof.
  intros Hi Hj. apply list_lookup_insert_Some in Hj as [(-> & [= -> ->] & _)|[? ?]];
    [by left|right; done].
Qed.

Lemma lookup_insert_thread_None {T P} (l : list (T * P)) i z j :
  <[i := z]> l !! j = None → l !! j = None.
Proof.
  rewrite !lookup_ge_None, length_insert. done.
Qed.

(** *** Executions keep [sys_inv] *)

Lemma sys_inv_init topt reqs calls : sys_inv topt calls (sys_init topt reqs calls).
Proof.
  split; simpl.
  - rewrite <- list_fmap_compose. apply list_fmap_id.
  - done.
  - apply unbounded_init.
  - intros j c pc Hj. apply list_lookup_fmap_Some in Hj as (c' & Hc & Heq).
    simplify_eq. constructor.
  - done.
  - intros j c pc h Hj. apply list_lookup_fmap_Some in Hj as (c' & Hc & Heq).
    by simplify_eq.
Qed.

Lemma sys_inv_transition topt calls s s' :
  sys_inv topt calls s → transition s s' → sys_inv topt calls s'.
Proof.
  intros [Hcalls Hto Hu Hsh Hnone Hh] Htr.
  destruct Htr as [i el r pc ev σ' pc' Hi Hst|j el c pc ev σ' pc' Hj Hst
                  |h resp σ' Hr|h resp e Hr]; split; simpl; try done.
  - by rewrite (dispatch_step_timeout _ _ _ _ _ _ _ Hst).
  - eauto using dispatch_step_unbounded.
  - intros j c pc0 Hj. rewrite hist_snoc. rewrite decide_False by done. eauto.
  - intros j Hj. rewrite hist_snoc. rewrite decide_False by done. eauto.
  - eauto using dispatch_step_handlers.
  - by rewrite (fst_insert_thread _ _ _ _ _ Hj).
  - by rewrite (assert_request_step_timeout _ _ _ _ _ _ _ Hst).
  - eauto using assert_request_step_unbounded.
  - intros j' c' pc0 Hj'. rewrite hist_snoc.
    destruct (lookup_insert_thread _ _ _ _ _ _ _ _ Hj Hj')
      as [(-> & -> & ->)|[Hne Hj'']].
    + rewrite decide_True by done. eauto using ashape_step.
    + rewrite decide_False by congruence. eauto.
  - intros j' Hj'. apply lookup_insert_thread_None in Hj'.
    rewrite hist_snoc. rewrite decide_False; [eauto|].
    intros [= ->]. congruence.
  - intros j' c' pc0 h Hj' Hpc.
    destruct (lookup_insert_thread _ _ _ _ _ _ _ _ Hj Hj')
      as [(-> & -> & ->)|[Hne Hj'']].
    + eapply assert_request_step_holds; [|exact Hst|exact Hpc]. eauto.
    + eapply assert_request_step_handlers; eauto.
  - by rewrite (respond_timeout _ _ _ _ Hr).
  - eauto using respond_unbounded.
  - intros j c pc0 Hj. rewrite hist_snoc. rewrite decide_False by done. eauto.
  - intros j Hj. rewrite hist_snoc. rewrite decide_False by done. eauto.
  - eauto using respond_handlers.
  - intros j c pc0 Hj. rewrite hist_snoc. rewrite decide_False by done. eauto.
  - intros j Hj. rewrite hist_snoc. rewrite decide_False by done. eauto.
Qed.

Lemma sys_inv_run topt reqs calls sched :
  sys_inv topt calls (run (sys_init topt reqs calls) sched).
Proof.
  apply run_invariant; [apply sys_inv_init|apply sys_inv_transition].
Qed.

(** ** The dictionary, the request queue and the sink *)

Lemma dispatch_step_reg el σ r pc ev σ' pc' :
  reg_ok σ r pc → dispatch_step el σ r pc = Some (ev, σ', pc') →
  reg_ok σ' r pc'.
Proof.
  unfold reg_ok. intros Hreg Hstep.
  destruct pc; simpl in Hreg, Hstep; step_inv Hstep; simpl;
    try done; try (by destruct Hreg).
  - rewrite lookup_insert_eq. eauto.
  - apply lookup_delete_eq.
Qed.

Lemma dispatch_step_reg_other el σ r pc ev σ' pc' r' :
  r' ≠ r → dispatch_step el σ r pc = Some (ev, σ', pc') →
  request_handlers σ' !! r' = request_handlers σ !! r'.
Proof.
  intros Hne Hstep. destruct pc; simpl in Hstep; step_inv Hstep; simpl; try done.
  - by rewrite lookup_insert_ne.
  - by rewrite lookup_delete_ne.
Qed.

Lemma assert_request_step_reg el σ c pc ev σ' pc' :
  assert_request_step el σ c pc = Some (ev, σ', pc') →
  request_handlers σ' = request_handlers σ.
Proof. intros Hstep. destruct pc; simpl in Hstep; step_inv Hstep; done. Qed.

Lemma respond_reg h resp σ σ' :
  respond_with_response h resp σ = Some (Return σ') →
  request_handlers σ' = request_handlers σ
  ∧ request_queue σ' = request_queue σ
  ∧ assertions σ' = assertions σ.
Proof. intros Hstep. step_inv Hstep; done. Qed.

Lemma NoDup_thread {T P} (l : list (T * P)) i j x p q :
  NoDup l.*1 → l !! i = Some (x, p) → l !! j = Some (x, q) → i = j.
Proof.
  intros Hnd Hi Hj. eapply NoDup_lookup; [exact Hnd| |];
    rewrite list_lookup_fmap; [rewrite Hi|rewrite Hj]; done.
Qed.

(** What a step of [dispatch] does to the request queue, the sink and the
    set of unpublished requests. *)
Lemma dispatch_step_queue el σ r pc ev σ' pc' :
  dispatch_step el σ r pc = Some (ev, σ', pc') →
  is_pop (Conn 0, ev) = None
  ∧ ((is_unpublished (r, pc) = Some r ∧ is_unpublished (r, pc') = None
      ∧ (Queue.items (request_queue σ') = Queue.items (request_queue σ) ++ [r]
         ∨ request_queue σ' = request_queue σ))
     ∨ (is_unpublished (r, pc') = is_unpublished (r, pc)
        ∧ request_queue σ' = request_queue σ)).
Proof.
  intros Hstep. destruct pc; simpl in Hstep; step_inv Hstep;
    (split; [done|]); simpl; eauto.
  match goal with H : Queue.put_nowait _ _ = Some _ |- _ =>
    apply put_nowait_Some in H as [? ?] end.
  left. eauto.
Qed.

Lemma assert_request_step_queue el σ c pc ev σ' pc' :
  assert_request_step el σ c pc = Some (ev, σ', pc') →
  (∃ r, ev = EvPop r
        ∧ Queue.items (request_queue σ) = r :: Queue.items (request_queue σ'))
  ∨ (is_pop (Conn 0, ev) = None ∧ request_queue σ' = request_queue σ).
Proof.
  intros Hstep. destruct pc; simpl in Hstep; step_inv Hstep; simpl; eauto.
  match goal with H : Queue.get _ _ _ = Queue.Got _ _ |- _ =>
    apply get_Got in H as [? ?] end.
  left. eauto.
Qed.

Lemma dispatch_step_sink el σ r pc ev σ' pc' :
  dispatch_step el σ r pc = Some (ev, σ', pc') →
  (∀ e, e ∈ assertions σ → e ∈ assertions σ')
  ∧ (∀ r' h, ev = EvNoResponse r' h →
             AssertionError (msg_no_response r') ∈ assertions σ').
Proof.
  intros Hstep. destruct pc; simpl in Hstep; step_inv Hstep; simpl;
    (split; [try done|try done]).
  - intros e He. apply elem_of_app. by left.
  - intros r' h' [= <- <-]. apply elem_of_app. right. by apply list_elem_of_singleton.
Qed.

Lemma assert_request_step_sink el σ c pc ev σ' pc' :
  assert_request_step el σ c pc = Some (ev, σ', pc') →
  assertions σ' = assertions σ ∧ ∀ r h, ev ≠ EvNoResponse r h.
Proof. intros Hstep. destruct pc; simpl in Hstep; step_inv Hstep; done. Qed.

Lemma omap_insert_same {A C} (f : A → option C) (l : list A) i x y :
  l !! i = Some x → f y = f x → omap f (<[i := y]> l) = omap f l.
Proof.
  revert i. induction l as [|z l IH]; intros [|i] Hi Hf; simplify_eq/=.
  - by rewrite Hf.
  - by rewrite (IH i).
Qed.

Lemma omap_insert_drop {A C} (f : A → option C) (l : list A) i x y c :
  l !! i = Some x → f x = Some c → f y = None →
  omap f l ≡ₚ c :: omap f (<[i := y]> l).
Proof.
  revert i. induction l as [|z l IH]; intros [|i] Hi Hx Hy; simplify_eq/=.
  - by rewrite Hx, Hy.
  - destruct (f z); simpl; [|by eapply IH].
    rewrite (IH i) by done. apply Permutation_swap.
Qed.

Lemma unpublished_init (reqs : list Request) :
  unpublished ((λ r, (r, DStart)) <$> reqs) = reqs.
Proof. induction reqs as [|r reqs IH]; [done|]. simpl. f_equal. exact IH. Qed.

Lemma conn_inv_init topt reqs calls :
  NoDup reqs → conn_inv reqs (sys_init topt reqs calls).
Proof.
  intros Hnd. split; simpl.
  - rewrite <- list_fmap_compose. apply list_fmap_id.
  - intros i r pc Hi. apply list_lookup_fmap_Some in Hi as (r' & Hr & Heq).
    simplify_eq. done.
  - intros i r pc Hi. apply list_lookup_fmap_Some in Hi as (r' & Hr & Heq).
    simplify_eq. constructor.
  - done.
  - by rewrite unpublished_init.
  - intros i r h Hin. by apply elem_of_nil in Hin.
Qed.

Lemma popped_snoc_other tr a ev :
  is_pop (Conn 0, ev) = None → popped (tr ++ [(a, ev)]) = popped tr.
Proof.
  intros Hev. rewrite popped_snoc. destruct ev; simplify_eq/=; by rewrite app_nil_r.
Qed.

Lemma elem_of_snoc_trace tr (x y : actor * event) :
  x ∈ tr ++ [y] → x ∈ tr ∨ x = y.
Proof.
  intros Hin. apply elem_of_app in Hin as [?|Hin]; [by left|].
  apply list_elem_of_singleton in Hin. by right.
Qed.

Lemma conn_inv_transition reqs s s' :
  NoDup reqs → unbounded (shared s) →
  conn_inv reqs s → transition s s' → conn_inv reqs s'.
Proof.
  intros Hnd Hu [Hreqs Hreg Hsh Hnone Hdup Hsink] Htr.
  destruct Htr as [i el r pc ev σ' pc' Hi Hst|j el c pc ev σ' pc' Hj Hst
                  |h resp σ' Hr|h resp e Hr]; split; simpl.
  - (* dispatch *) by rewrite (fst_insert_thread _ _ _ _ _ Hi).
  - intros i' r' pc0 Hi'.
    destruct (lookup_insert_thread _ _ _ _ _ _ _ _ Hi Hi')
      as [(-> & -> & ->)|[Hne Hi'']].
    + eapply dispatch_step_reg; [|done]. by apply (Hreg i).
    + assert (r' ≠ r) as Hr.
      { intros ->. apply Hne. rewrite <- Hreqs in Hnd.
        eapply NoDup_thread; eauto. }
      unfold reg_ok.
      rewrite (dispatch_step_reg_other _ _ _ _ _ _ _ _ Hr Hst). by apply (Hreg i').
  - intros i' r' pc0 Hi'. rewrite hist_snoc.
    destruct (lookup_insert_thread _ _ _ _ _ _ _ _ Hi Hi')
      as [(-> & -> & ->)|[Hne Hi'']].
    + rewrite decide_True by done.
      eapply dshape_step; [by eapply Hsh|done| |done].
      intros Hpc. specialize (Hreg _ _ _ Hi). unfold reg_ok in Hreg.
      by rewrite Hpc in Hreg.
    + rewrite decide_False by congruence. eauto.
  - intros i' Hi'. apply lookup_insert_thread_None in Hi'.
    rewrite hist_snoc. rewrite decide_False; [eauto|].
    intros [= ->]. congruence.
  - destruct (dispatch_step_queue _ _ _ _ _ _ _ Hst)
      as [Hev [(Hu1 & Hu2 & Hq)|[Hu1 Hq]]].
    + rewrite (popped_snoc_other _ _ _ Hev).
      unfold unpublished in *.
      rewrite (omap_insert_drop _ _ _ _ (r, pc') _ Hi Hu1 Hu2) in Hdup.
      destruct Hq as [-> | ->].
      * eapply NoDup_Permutation_proper; [|exact Hdup].
        rewrite <- !app_assoc. simpl.
        rewrite !(Permutation_middle _ _ r). done.
      * eapply NoDup_Permutation_proper in Hdup;
          [|rewrite <- !(Permutation_middle _ _ r); reflexivity].
        by apply NoDup_cons in Hdup as [_ ?].
    + rewrite (popped_snoc_other _ _ _ Hev), Hq.
      unfold unpublished in *.
      by rewrite (omap_insert_same _ _ _ _ (r, pc') Hi Hu1).
  - intros i' r' h Hin.
    destruct (dispatch_step_sink _ _ _ _ _ _ _ Hst) as [Hmono Hnew].
    apply elem_of_snoc_trace in Hin as [Hin|Heq]; [eauto|].
    simplify_eq. eauto.
  - (* assert_request *) done.
  - intros i r pc0 Hi. unfold reg_ok.
    rewrite (assert_request_step_reg _ _ _ _ _ _ _ Hst). by apply (Hreg i).
  - intros i r pc0 Hi. rewrite hist_snoc, decide_False by done. eauto.
  - intros i Hi. rewrite hist_snoc, decide_False by done. eauto.
  - destruct (assert_request_step_queue _ _ _ _ _ _ _ Hst) as [(r & -> & Hq)|[Hev Hq]].
    + rewrite popped_snoc. rewrite Hq in Hdup.
      eapply NoDup_Permutation_proper; [|exact Hdup].
      simpl. rewrite <- !app_assoc. simpl.
      rewrite <- !(Permutation_middle _ _ r). done.
    + by rewrite (popped_snoc_other _ _ _ Hev), Hq.
  - intros i r h Hin.
    destruct (assert_request_step_sink _ _ _ _ _ _ _ Hst) as [-> Hne].
    apply elem_of_snoc_trace in Hin as [Hin|Heq]; [eauto|].
    simplify_eq; by destruct (Hne r h).
  - (* respond_with_response *) done.
  - intros i r pc0 Hi. unfold reg_ok.
    destruct (respond_reg _ _ _ _ Hr) as (-> & _ & _). by apply (Hreg i).
  - intros i r pc0 Hi. rewrite hist_snoc, decide_False by done. eauto.
  - intros i Hi. rewrite hist_snoc, decide_False by done. eauto.
  - destruct (respond_reg _ _ _ _ Hr) as (_ & -> & _).
    by rewrite popped_snoc_other.
  - intros i r h' Hin. destruct (respond_reg _ _ _ _ Hr) as (_ & _ & ->).
    apply elem_of_snoc_trace in Hin as [Hin|[=]]; eauto.
  - done.
  - done.
  - intros i r pc0 Hi. rewrite hist_snoc, decide_False by done. eauto.
  - intros i Hi. rewrite hist_snoc, decide_False by done. eauto.
  - by rewrite popped_snoc_other.
  - intros i r h' Hin. apply elem_of_snoc_trace in Hin as [Hin|[=]]; eauto.
Qed.

Lemma invariants_run topt reqs calls sched :
  NoDup reqs →
  sys_inv topt calls (run (sys_init topt reqs calls) sched)
  ∧ conn_inv reqs (run (sys_init topt reqs calls) sched).
Proof.
  intros Hnd.
  apply (run_invariant (λ s, sys_inv topt calls s ∧ conn_inv reqs s)).
  - split; [apply sys_inv_init|by apply conn_inv_init].
  - intros s s' [Hs Hc] Htr. split; [by eapply sys_inv_transition|].
    eapply conn_inv_transition; eauto. apply Hs.
Qed.

(** ** Reading the invariants *)

Lemma trace_transition s s' : transition s s' → trace s `prefix_of` trace s'.
Proof. intros []; simpl; by apply prefix_app_r. Qed.

Lemma trace_run s sched : trace s `prefix_of` trace (run s sched).
Proof.
  induction sched as [|act sched IH] using rev_ind; [done|].
  rewrite run_snoc.
  destruct (sys_step_transition (run s sched) act) as [->|Htr]; [done|].
  etrans; [exact IH|]. by apply trace_transition.
Qed.

Lemma hist_app a tr1 tr2 : hist a (tr1 ++ tr2) = hist a tr1 ++ hist a tr2.
Proof. unfold hist. apply omap_app. Qed.

Lemma hist_cons_eq a ev tr : hist a ((a, ev) :: tr) = ev :: hist a tr.
Proof. unfold hist. simpl. by rewrite decide_True. Qed.

(** The last step of a thread splits the trace. *)
Lemma hist_split_last a tr l e :
  hist a tr = l ++ [e] →
  ∃ t1 t2, tr = t1 ++ (a, e) :: t2 ∧ hist a t1 = l ∧ hist a t2 = [].
Proof.
  induction tr as [|[a' e'] tr IH] using rev_ind.
  - intros Hh. by destruct l.
  - rewrite hist_snoc. case_decide as Ha.
    + subst a'. intros [Hl ->]%app_inj_tail. by exists tr, [].
    + intros (t1 & t2 & -> & Hl & Ht2)%IH.
      exists t1, (t2 ++ [(a', e')]). split_and!.
      * by rewrite <- app_assoc.
      * done.
      * by rewrite hist_snoc, decide_False.
Qed.

Lemma dshape_head r evs pc :
  dshape r evs pc → evs = [] ∨ ∃ a evs', evs = EvRegister r a :: evs'.
Proof.
  induction 1 as [| | | | | | | | | |evs o Hs IH]; eauto.
  destruct IH as [->|(a & evs' & ->)]; [inversion Hs|].
  right. by exists a, (evs' ++ [EvDeregister r]).
Qed.

Lemma dshape_publish r evs pc r' :
  dshape r evs pc → EvPublish r' ∈ evs → r' = r.
Proof.
  induction 1 as [| | | | | | | | | |evs o Hs IH]; intros Hin;
    decompose_list_elem_of; simplify_eq; try done.
  by apply IH.
Qed.

Lemma unpublished_start (ds : list (Request * dpc)) i r :
  ds !! i = Some (r, DStart) → r ∈ unpublished ds.
Proof.
  intros Hi. unfold unpublished. apply list_elem_of_omap.
  exists (r, DStart). split; [|done]. by eapply list_elem_of_lookup_2.
Qed.

Lemma pop_unique tr a1 a2 r :
  NoDup (popped tr) → (a1, EvPop r) ∈ tr → (a2, EvPop r) ∈ tr → a1 = a2.
Proof.
  induction tr as [|[a ev] tr IH]; intros Hdup H1 H2.
  { by apply elem_of_nil in H1. }
  unfold popped in Hdup. simpl in Hdup.
  apply elem_of_cons in H1 as [H1|H1], H2 as [H2|H2]; simplify_eq.
  - done.
  - simpl in Hdup. apply NoDup_cons in Hdup as [Hn _].
    destruct Hn. by eapply elem_of_popped.
  - simpl in Hdup. apply NoDup_cons in Hdup as [Hn _].
    destruct Hn. by eapply elem_of_popped.
  - apply IH; try done. unfold is_pop in Hdup.
    destruct ev; simpl in Hdup; try done. by apply NoDup_cons in Hdup as [_ ?].
Qed.

Lemma dshape_no_response r evs pc r' h :
  dshape r evs pc → EvNoResponse r' h ∈ evs →
  pc = DFinally (Raise (AssertionError (msg_no_response r)))
  ∨ pc = DDone (Raise (AssertionError (msg_no_response r))).
Proof.
  induction 1 as [| | | | | | | | | |evs o Hs IH]; intros Hin;
    decompose_list_elem_of; simplify_eq; eauto.
  destruct IH as [IH|IH]; [done| |done]. simplify_eq. by right.
Qed.

Lemma ashape_delivered c evs pc m r h :
  ashape c evs pc → EvMatcher m ∈ evs → EvDeliver r h ∈ evs →
  difference m r ≠ [] →
  (pc = ARespond m r (difference m r) h
   ∧ ∃ a, evs = [EvMatcher m; EvPop r; EvNew r h a; EvDeliver r h])
  ∨ (pc = ADone (Raise (AssertionError
                          (msg_does_not_match m (difference m r))))
     ∧ ∃ a, evs = [EvMatcher m; EvPop r; EvNew r h a; EvDeliver r h;
                   EvRespond h (respond_nohandler r)]).
Proof.
  intros Hs Hm Hd Hdiff.
  inversion Hs; subst; decompose_list_elem_of; simplify_eq; eauto.
Qed.


(** ** References *)

Lemma is_Some_snoc {A} (l : list A) x i :
  is_Some (l !! i) → is_Some ((l ++ [x]) !! i).
Proof. rewrite !lookup_lt_is_Some, length_app. simpl. lia. Qed.

Lemma is_Some_insert {A} (l : list A) x i j :
  is_Some (l !! i) → is_Some (<[j := x]> l !! i).
Proof. by rewrite !lookup_lt_is_Some, length_insert. Qed.

Lemma is_Some_new {A} (l : list A) x : is_Some ((l ++ [x]) !! length l).
Proof. rewrite lookup_lt_is_Some, length_app. simpl. lia. Qed.

Create HintDb heap.
Hint Resolve is_Some_snoc is_Some_insert is_Some_new : heap.

Lemma dispatch_step_heap_le el σ r pc ev σ' pc' :
  dispatch_step el σ r pc = Some (ev, σ', pc') → heap_le σ σ'.
Proof.
  intros Hstep. destruct pc; simpl in Hstep; step_inv Hstep;
    split; simpl; auto with heap.
Qed.

Lemma assert_request_step_heap_le el σ c pc ev σ' pc' :
  assert_request_step el σ c pc = Some (ev, σ', pc') → heap_le σ σ'.
Proof.
  intros Hstep. destruct pc; simpl in Hstep; step_inv Hstep;
    split; simpl; auto with heap.
Qed.

Lemma respond_heap_le h resp σ σ' :
  respond_with_response h resp σ = Some (Return σ') → heap_le σ σ'.
Proof. intros Hstep. step_inv Hstep. split; simpl; auto with heap. Qed.

Lemma dpc_ok_le σ σ' pc : heap_le σ σ' → dpc_ok σ pc → dpc_ok σ' pc.
Proof. intros [? ?]. destruct pc; simpl; auto. Qed.

Lemma apc_ok_le σ σ' pc : heap_le σ σ' → apc_ok σ pc → apc_ok σ' pc.
Proof. intros [? ?]. destruct pc; simpl; intuition auto. Qed.

Lemma lookup_snoc_Some {A} (l : list A) x i y :
  (l ++ [x]) !! i = Some y → l !! i = Some y ∨ y = x.
Proof.
  intros Hi. apply lookup_app_Some in Hi as [?|[_ Hi]]; [by left|right].
  destruct (i - length l)%nat; simpl in Hi; [by simplify_eq|done].
Qed.

Lemma dispatch_step_heap el σ r pc ev σ' pc' :
  heap_ok σ → dpc_ok σ pc →
  dispatch_step el σ r pc = Some (ev, σ', pc') →
  heap_ok σ' ∧ dpc_ok σ' pc'.
Proof.
  intros [Hd Hi] Hpc Hstep.
  destruct pc; simpl in Hstep, Hpc; step_inv Hstep; simpl;
    try (split; [by split|done]); try (split; [by split|eauto]).
  - (* line 139 *)
    split; [split|done]; simpl.
    + intros r' a. rewrite lookup_insert. case_decide.
      * intros [= <-]. apply is_Some_new.
      * intros Ha. apply is_Some_snoc. eauto.
    + intros a q h Ha Hh. apply lookup_snoc_Some in Ha as [Ha| ->]; [eauto|].
      by apply elem_of_nil in Hh.
  - (* a handler is taken from the queue *)
    match goal with H : Queue.get _ _ _ = Queue.Got _ _ |- _ =>
      apply get_Got in H as [_ Hitems] end.
    split; [split|]; simpl.
    + intros r1 a1 Ha1. apply is_Some_insert. eauto.
    + intros a1 q1 h1 Ha1 Hh1.
      apply list_lookup_insert_Some in Ha1 as [(-> & <- & _)|[_ Ha1]]; [|eauto].
      eapply Hi; [eassumption|]. rewrite Hitems. by right.
    + eapply Hi; [eassumption|]. rewrite Hitems. by left.
  - (* a response is taken from the queue *)
    split; [split|done]; simpl.
    + done.
    + intros a1 q1 h1 Ha1 Hh1. apply is_Some_insert. eauto.
  - (* line 155 *)
    split; [split|done]; simpl; [|done].
    intros r1 a1. rewrite lookup_delete. case_decide; [done|eauto].
Qed.

Lemma assert_request_step_heap el σ c pc ev σ' pc' :
  heap_ok σ → apc_ok σ pc →
  assert_request_step el σ c pc = Some (ev, σ', pc') →
  heap_ok σ' ∧ apc_ok σ' pc'.
Proof.
  intros [Hd Hi] Hpc Hstep.
  destruct pc as [|m|m r|m r diff h a|m r diff h|o]; simpl in Hstep, Hpc.
  - step_inv Hstep; (split; [by split|done]).
  - step_inv Hstep; (split; [by split|done]).
  - (* line 116 *)
    step_inv Hstep; (split; [split|]); simpl;
      eauto using is_Some_snoc, is_Some_new.
  - (* line 118 *)
    destruct Hpc as [Hh [q Ha]]. rewrite Ha in Hstep. simpl in Hstep.
    destruct (Queue.put_nowait q h) as [q1|] eqn:Hput; simplify_eq;
      [|split; [by split|done]].
    apply put_nowait_Some in Hput as [_ Hitems].
    split; [split|]; simpl.
    + intros r1 a1 Ha1. apply is_Some_insert. eauto.
    + intros a1 q2 h1 Ha1 Hh1.
      apply list_lookup_insert_Some in Ha1 as [(-> & <- & _)|[_ Ha1]]; [|eauto].
      rewrite Hitems in Hh1. apply elem_of_app in Hh1 as [Hh1|Hh1]; [eauto|].
      apply list_elem_of_singleton in Hh1 as ->. done.
    + by destruct diff.
  - (* line 121 *)
    step_inv Hstep; (split; [split|done]); simpl; try done.
    intros a1 q1 h1 Ha1 Hh1. apply is_Some_insert. eauto.
  - done.
Qed.

Lemma respond_heap h resp σ σ' :
  heap_ok σ → respond_with_response h resp σ = Some (Return σ') → heap_ok σ'.
Proof.
  intros [Hd Hi] Hstep. step_inv Hstep. split; simpl; [done|].
  intros a1 q1 h1 Ha1 Hh1. apply is_Some_insert. eauto.
Qed.

Lemma alloc_inv_init topt reqs calls : alloc_inv (sys_init topt reqs calls).
Proof.
  split; simpl.
  - split; simpl; [intros r a Hr; by rewrite lookup_empty in Hr|done].
  - intros i r pc Hi. apply list_lookup_fmap_Some in Hi as (r' & Hr & Heq).
    by simplify_eq.
  - intros j c pc Hj. apply list_lookup_fmap_Some in Hj as (c' & Hc & Heq).
    by simplify_eq.
Qed.

Lemma alloc_inv_transition s s' :
  alloc_inv s → transition s s' → alloc_inv s'.
Proof.
  intros [Hheap Hds Has] Htr.
  destruct Htr as [i el r pc ev σ' pc' Hi Hst|j el c pc ev σ' pc' Hj Hst
                  |h resp σ' Hr|h resp e Hr]; simpl.
  - destruct (dispatch_step_heap _ _ _ _ _ _ _ Hheap (Hds _ _ _ Hi) Hst)
      as [Hheap' Hpc'].
    pose proof (dispatch_step_heap_le _ _ _ _ _ _ _ Hst) as Hle.
    split; simpl; [done| |].
    + intros i' r' pc0 Hi'.
      destruct (lookup_insert_thread _ _ _ _ _ _ _ _ Hi Hi')
        as [(-> & -> & ->)|[Hne Hi'']]; [done|].
      eapply dpc_ok_le; eauto.
    + intros j c pc0 Hj. eapply apc_ok_le; eauto.
  - destruct (assert_request_step_heap _ _ _ _ _ _ _ Hheap (Has _ _ _ Hj) Hst)
      as [Hheap' Hpc'].
    pose proof (assert_request_step_heap_le _ _ _ _ _ _ _ Hst) as Hle.
    split; simpl; [done| |].
    + intros i r pc0 Hi. eapply dpc_ok_le; eauto.
    + intros j' c' pc0 Hj'.
      destruct (lookup_insert_thread _ _ _ _ _ _ _ _ Hj Hj')
        as [(-> & -> & ->)|[Hne Hj'']]; [done|].
      eapply apc_ok_le; eauto.
  - pose proof (respond_heap_le _ _ _ _ Hr) as Hle.
    split; simpl; [by eapply respond_heap| |].
    + intros i r pc0 Hi. eapply dpc_ok_le; eauto.
    + intros j c pc0 Hj. eapply apc_ok_le; eauto.
  - by split.
Qed.

Lemma alloc_inv_run topt reqs calls sched :
  alloc_inv (run (sys_init topt reqs calls) sched).
Proof.
  apply run_invariant; [apply alloc_inv_init|apply alloc_inv_transition].
Qed.

(** *** No thread is stuck once its timeout has elapsed *)

Lemma get_not_blocked {A} (q : Queue.t A) t el :
  t ≤ el → Queue.get q t el ≠ Queue.Blocked.
Proof. rewrite get_Blocked. lia. Qed.

Lemma dispatch_step_enabled el σ r pc :
  dpc_ok σ pc → (∀ o, pc ≠ DDone o) → timeout σ ≤ el →
  is_Some (dispatch_step el σ r pc).
Proof.
  intros Hpc Hnd Hel. destruct pc; simpl in *.
  - eauto.
  - destruct (Queue.put_nowait _ _); eauto.
  - destruct (request_handlers σ !! r); eauto.
  - destruct Hpc as [q ->]. simpl.
    pose proof (get_not_blocked q _ _ Hel).
    destruct (Queue.get q (timeout σ) el); eauto. done.
  - destruct Hpc as [q ->]. simpl.
    pose proof (get_not_blocked q _ _ Hel).
    destruct (Queue.get q (timeout σ) el); eauto. done.
  - destruct (request_handlers σ !! r); eauto.
  - by destruct (Hnd o).
Qed.

Lemma assert_request_step_enabled el σ c pc :
  apc_ok σ pc → (∀ o, pc ≠ ADone o) → call_timeout c ≤ el →
  is_Some (assert_request_step el σ c pc).
Proof.
  intros Hpc Hnd Hel. destruct pc; simpl in *.
  - destruct (create_matcher _ _); eauto.
  - pose proof (get_not_blocked (request_queue σ) _ _ Hel).
    destruct (Queue.get (request_queue σ) (call_timeout c) el); eauto. done.
  - destruct (request_handlers σ !! r); eauto.
  - destruct Hpc as [_ [q ->]]. simpl.
    destruct (Queue.put_nowait q h); eauto.
  - destruct Hpc as [q Hq]. unfold respond_with_response. rewrite Hq. simpl.
    destruct (Queue.put_nowait q _); eauto.
  - by destruct (Hnd o).
Qed.

(** ** Termination *)

Lemma dispatch_step_rank el σ r pc ev σ' pc' :
  dispatch_step el σ r pc = Some (ev, σ', pc') →
  (dpc_rank pc < dpc_rank pc' ≤ 6)%nat.
Proof.
  intros Hstep. destruct pc; simpl in Hstep; step_inv Hstep; simpl; lia.
Qed.

Lemma assert_request_step_rank el σ c pc ev σ' pc' :
  assert_request_step el σ c pc = Some (ev, σ', pc') →
  (apc_rank pc < apc_rank pc' ≤ 5)%nat.
Proof.
  intros Hstep. destruct pc; simpl in Hstep; step_inv Hstep; simpl; lia.
Qed.

Lemma dispatch_terminates_from n topt reqs calls sched i r pc :
  dprocs (run (sys_init topt reqs calls) sched) !! i = Some (r, pc) →
  (6 - dpc_rank pc ≤ n)%nat →
  ∃ k o,
    (k ≤ n)%nat
    ∧ dprocs (run (run (sys_init topt reqs calls) sched)
                  (replicate k (ActDispatch i (default default_timeout topt))))
        !! i = Some (r, DDone o).
Proof.
  revert sched pc. induction n as [|n IH]; intros sched pc Hi Hn.
  { destruct pc; simpl in Hn; try lia. by exists 0%nat, o. }
  destruct (decide (dpc_rank pc = 6%nat)) as [Hr|Hr].
  { destruct pc; simpl in Hr; try lia. exists 0%nat, o. split; [lia|done]. }
  set (s := run (sys_init topt reqs calls) sched) in *.
  set (el := default default_timeout topt).
  destruct (dispatch_step_enabled el (shared s) r pc) as [[[ev σ'] pc'] Hst].
  { by apply (alloc_dprocs _ (alloc_inv_run topt reqs calls sched) i r). }
  { intros o ->. by apply Hr. }
  { subst el s.
    by rewrite (inv_timeout _ _ _ (sys_inv_run topt reqs calls sched)). }
  pose proof (dispatch_step_rank _ _ _ _ _ _ _ Hst) as Hrank.
  destruct (IH (sched ++ [ActDispatch i el]) pc') as (k & o & Hle & Hk).
  - rewrite run_snoc. fold s. simpl. rewrite Hi, Hst. simpl.
    apply list_lookup_insert_eq. by eapply lookup_lt_Some.
  - lia.
  - exists (S k), o. rewrite run_snoc in Hk. split; [lia|done].
Qed.

Lemma assert_terminates_from n topt reqs calls sched j c pc :
  aprocs (run (sys_init topt reqs calls) sched) !! j = Some (c, pc) →
  (5 - apc_rank pc ≤ n)%nat →
  ∃ k o,
    (k ≤ n)%nat
    ∧ aprocs (run (run (sys_init topt reqs calls) sched)
                  (replicate k (ActAssert j (call_timeout c))))
        !! j = Some (c, ADone o).
Proof.
  revert sched pc. induction n as [|n IH]; intros sched pc Hj Hn.
  { destruct pc; simpl in Hn; try lia. by exists 0%nat, o. }
  destruct (decide (apc_rank pc = 5%nat)) as [Hr|Hr].
  { destruct pc; simpl in Hr; try lia. exists 0%nat, o. split; [lia|done]. }
  set (s := run (sys_init topt reqs calls) sched) in *.
  destruct (assert_request_step_enabled (call_timeout c) (shared s) c pc)
    as [[[ev σ'] pc'] Hst].
  { by apply (alloc_aprocs _ (alloc_inv_run topt reqs calls sched) j c). }
  { intros o ->. by apply Hr. }
  { done. }
  pose proof (assert_request_step_rank _ _ _ _ _ _ _ Hst) as Hrank.
  destruct (IH (sched ++ [ActAssert j (call_timeout c)]) pc') as (k & o & Hle & Hk).
  - rewrite run_snoc. fold s. simpl. rewrite Hj, Hst. simpl.
    apply list_lookup_insert_eq. by eapply lookup_lt_Some.
  - lia.
  - exists (S k), o. rewrite run_snoc in Hk. split; [lia|done].
Qed.

(** X1. Every wait of [dispatch] is bounded: whatever the other threads
    have done, a [dispatch] call that is scheduled after waiting for the
    server timeout terminates within six steps. *)
Theorem dispatch_terminates topt reqs calls sched i r pc :
  dprocs (run (sys_init topt reqs calls) sched) !! i = Some (r, pc) →
  ∃ k o,
    (k ≤ 6)%nat
    ∧ dprocs (run (run (sys_init topt reqs calls) sched)
                  (replicate k (ActDispatch i (default default_timeout topt))))
        !! i = Some (r, DDone o).
Proof. intros Hi. eapply dispatch_terminates_from; [exact Hi|lia]. Qed.

(** X2. A call of [assert_request] that is scheduled after waiting for its
    own [timeout] terminates within five steps, whatever the other threads
    have done: its only wait is the one of line 110. *)
Theorem assert_request_terminates topt reqs calls sched j c pc :
  aprocs (run (sys_init topt reqs calls) sched) !! j = Some (c, pc) →
  ∃ k o,
    (k ≤ 5)%nat
    ∧ aprocs (run (run (sys_init topt reqs calls) sched)
                  (replicate k (ActAssert j (call_timeout c))))
        !! j = Some (c, ADone o).
Proof. intros Hj. eapply assert_terminates_from; [exact Hj|lia]. Qed.

End Invariants.

(** * Properties of the executions *)

Section Properties.
Context `{B : HttpServerBase}.
Implicit Types (σ : state) (s : sys) (tr : list (actor * event)).

(** X3. The defect behind C1: when [assert_request] has taken a request whose
    [dispatch] call has terminated, line 118 raises [KeyError]. *)
Lemma stale_request_KeyError topt reqs calls sched i j r o c m el :
  let s := run (sys_init topt reqs calls) sched in
  NoDup reqs →
  dprocs s !! i = Some (r, DDone o) →
  aprocs s !! j = Some (c, AGot m r) →
  assert_request_step el (shared s) c (AGot m r)
  = Some (EvFail (KeyError r), (BlockingRequestHandler_init (shared s)).2,
          ADone (Raise (KeyError r))).
Proof.
  intros s Hnd Hi Hj. subst s.
  destruct (invariants_run topt reqs calls sched Hnd) as [_ Hc].
  pose proof (inv_reg _ _ Hc _ _ _ Hi) as Hreg. unfold reg_ok in Hreg.
  simpl in *. by rewrite Hreg.
Qed.

(** C2, as the code has it.  When a handler was assigned and the wait on its
    response queue has timed out, [dispatch] has recorded the
    [AssertionError] in the sink and that same error is its result: it is
    pending while line 155 is still to run, the step that runs line 155
    removes the entry and terminates the call with it, and no response is
    returned. *)
Theorem dispatch_no_response_raises topt reqs calls sched i r pc h :
  let s := run (sys_init topt reqs calls) sched in
  let assertion :=
    AssertionError ("No response for request: " +:+ str_request r) in
  NoDup reqs →
  dprocs s !! i = Some (r, pc) →
  (Conn i, EvNoResponse r h) ∈ trace s →
  assertion ∈ assertions (shared s)
  ∧ ((pc = DFinally (Raise assertion)
      ∧ ∀ el, ∃ σ',
          dispatch_step el (shared s) r pc
          = Some (EvDeregister r, σ', DDone (Raise assertion)))
     ∨ pc = DDone (Raise assertion)).
Proof.
  intros s assertion Hnd Hi Hin. subst s assertion.
  destruct (invariants_run topt reqs calls sched Hnd) as [_ Hc].
  split; [by eapply inv_sink|].
  pose proof (inv_dshape _ _ Hc _ _ _ Hi) as Hs.
  apply elem_of_hist in Hin.
  destruct (dshape_no_response _ _ _ _ _ Hs Hin) as [->| ->]; [left|by right].
  split; [done|]. intros el.
  destruct (inv_reg _ _ Hc _ _ _ Hi) as [a Ha]. simpl. rewrite Ha. eauto.
Qed.

(** C3. Whatever way [dispatch(r)] terminates (a delivered response, the
    no-handler response, the no-response error, or any other exception),
    its last step was [del self.request_handlers[request]], and once it has
    terminated the dictionary has no entry for [r]. *)
Theorem dispatch_removes_entry topt reqs calls sched i r o :
  let s := run (sys_init topt reqs calls) sched in
  NoDup reqs →
  dprocs s !! i = Some (r, DDone o) →
  request_handlers (shared s) !! r = None
  ∧ ∃ t1 t2,
      trace s = t1 ++ (Conn i, EvDeregister r) :: t2
      ∧ hist (Conn i) t2 = [].
Proof.
  intros s Hnd Hi. subst s.
  destruct (invariants_run topt reqs calls sched Hnd) as [_ Hc].
  split.
  - exact (inv_reg _ _ Hc _ _ _ Hi).
  - pose proof (inv_dshape _ _ Hc _ _ _ Hi) as Hs.
    inversion Hs as [| | | | | | | | | |evs o' Hs' Hevs]; subst.
    symmetry in Hevs.
    apply hist_split_last in Hevs as (t1 & t2 & ? & _ & ?). eauto.
Qed.

(** C4. The requests taken from the request queue are pairwise distinct:
    no two [assert_request] calls receive the same request.  A call that
    returns a handler has received exactly one request, the one it
    matched. *)
Theorem at_most_once topt reqs calls sched :
  let s := run (sys_init topt reqs calls) sched in
  NoDup reqs →
  NoDup (popped (trace s))
  ∧ (∀ j1 j2 r,
       (Asserter j1, EvPop r) ∈ trace s →
       (Asserter j2, EvPop r) ∈ trace s →
       j1 = j2)
  ∧ (∀ j c h,
       aprocs s !! j = Some (c, ADone (Return h)) →
       ∃ m r a,
         hist (Asserter j) (trace s)
         = [EvMatcher m; EvPop r; EvNew r h a; EvDeliver r h]
         ∧ difference m r = []).
Proof.
  intros s Hnd. subst s.
  destruct (invariants_run topt reqs calls sched Hnd) as [Hs Hc].
  pose proof (inv_nodup _ _ Hc) as Hdup.
  apply NoDup_app in Hdup as (_ & _ & Hdup).
  apply NoDup_app in Hdup as (Hdup & _ & _).
  split_and!; [done| |].
  - intros j1 j2 r H1 H2.
    by pose proof (pop_unique _ _ _ _ Hdup H1 H2) as [= ->].
  - intros j c h Hj.
    pose proof (inv_ashape _ _ _ Hs _ _ _ Hj) as Hsh.
    inversion Hsh; subst. eauto.
Qed.

(** C5, as the code has it.  In every execution the step that puts [r] on
    the request queue comes after the step of the same [dispatch] call that
    registered the fresh queue for [r]; and as long as that call has not
    terminated, a request that the test thread can see (queued or already
    taken) has its entry in the dictionary.  Once the call has terminated
    the entry is gone while the request may still be in the queue. *)
Theorem register_before_publish topt reqs calls sched :
  let s := run (sys_init topt reqs calls) sched in
  NoDup reqs →
  (∀ t1 t2 i r,
      trace s = t1 ++ (Conn i, EvPublish r) :: t2 →
      ∃ a, (Conn i, EvRegister r a) ∈ t1)
  ∧ (∀ i r pc,
      dprocs s !! i = Some (r, pc) →
      (∀ o, pc ≠ DDone o) →
      r ∈ Queue.items (request_queue (shared s)) ∨ r ∈ popped (trace s) →
      is_Some (request_handlers (shared s) !! r)).
Proof.
  intros s Hnd.
  destruct (invariants_run topt reqs calls sched Hnd) as [_ Hc].
  fold s in Hc.
  split.
  - intros t1 t2 i r Htr.
    assert (hist (Conn i) (trace s)
            = hist (Conn i) t1 ++ EvPublish r :: hist (Conn i) t2) as Hh.
    { by rewrite Htr, hist_app, hist_cons_eq. }
    destruct (dprocs s !! i) as [[r' pc]|] eqn:Hi.
    + pose proof (inv_dshape _ _ Hc _ _ _ Hi) as Hs.
      assert (r' = r) as ->.
      { symmetry. eapply dshape_publish; [exact Hs|].
        rewrite Hh. apply elem_of_app. right. by left. }
      apply dshape_head in Hs as [Hnil|(a & evs' & Hevs)].
      * rewrite Hh in Hnil. by destruct (hist (Conn i) t1).
      * rewrite Hh in Hevs.
        destruct (hist (Conn i) t1) as [|e l] eqn:Ht1; simplify_eq/=.
        exists a. apply elem_of_hist. rewrite Ht1. by left.
    + pose proof (inv_dhist _ _ Hc _ Hi) as Hnil.
      rewrite Hh in Hnil. by destruct (hist (Conn i) t1).
  - intros i r pc Hi Hpc Hvis.
    pose proof (inv_reg _ _ Hc _ _ _ Hi) as Hreg. unfold reg_ok in Hreg.
    destruct pc; simpl in Hreg; try done.
    + exfalso. pose proof (inv_nodup _ _ Hc) as Hdup.
      apply unpublished_start in Hi.
      apply NoDup_app in Hdup as (_ & Hq & Hdup).
      apply NoDup_app in Hdup as (_ & Hp & _).
      destruct Hvis as [Hvis|Hvis].
      * apply (Hq r Hvis). apply elem_of_app. by right.
      * by apply (Hp r Hvis).
    + by destruct (Hpc o).
Qed.

(** X18. Once [assert_request] has delivered the handler for a request whose
    difference is not empty, it is either about to push the
    [respond_nohandler] response into the handler's queue, and that step
    does push it and ends the call with the does-not-match error, or it has
    ended with that error and the push, made after the delivery, was its
    last step.  In neither case is the handler returned.  The message ends
    with the difference. *)
Theorem mismatch_pushes_then_raises topt reqs calls sched j c pc m r h :
  let s := run (sys_init topt reqs calls) sched in
  let error :=
    AssertionError ("Request " +:+ str_matcher m +:+ " does not match: "
                      +:+ str_diff (difference m r)) in
  aprocs s !! j = Some (c, pc) →
  (Asserter j, EvMatcher m) ∈ trace s →
  (Asserter j, EvDeliver r h) ∈ trace s →
  difference m r ≠ [] →
  (pc = ARespond m r (difference m r) h
   ∧ ∃ q,
       handlers (shared s) !! h = Some q
       ∧ ∀ el,
           assert_request_step el (shared s) c pc
           = Some (EvRespond h (respond_nohandler r),
                   set_handlers
                     (<[h := Queue.mk 0 (Queue.items q ++ [respond_nohandler r])]>
                        (handlers (shared s)))
                     (shared s),
                   ADone (Raise error)))
  ∨ (pc = ADone (Raise error)
     ∧ ∃ t1 t2,
         trace s = t1 ++ (Asserter j, EvRespond h (respond_nohandler r)) :: t2
         ∧ (Asserter j, EvDeliver r h) ∈ t1
         ∧ hist (Asserter j) t2 = []).
Proof.
  intros s error Hj Hm Hd Hdiff. subst s error.
  pose proof (sys_inv_run topt reqs calls sched) as Hinv.
  pose proof (inv_ashape _ _ _ Hinv _ _ _ Hj) as Hs.
  apply elem_of_hist in Hm, Hd.
  destruct (ashape_delivered _ _ _ _ _ _ Hs Hm Hd Hdiff)
    as [[-> [a Hevs]]|[-> [a Hevs]]]; [left|right]; (split; [done|]).
  - destruct (inv_handlers _ _ _ Hinv _ _ _ h Hj eq_refl) as [q Hq].
    exists q. split; [done|]. intros el. simpl.
    by rewrite (respond_total _ _ _ q (inv_unbounded _ _ _ Hinv) Hq).
  - apply (hist_split_last _ _ [EvMatcher m; EvPop r; EvNew r h a; EvDeliver r h])
      in Hevs as (t1 & t2 & Htr & Ht1 & Ht2).
    exists t1, t2. split_and!; [done| |done].
    apply elem_of_hist. rewrite Ht1.
    do 3 (apply elem_of_cons; right). apply elem_of_cons. by left.
Qed.


(** C8. In every state that the system can reach, whatever the response
    queue of a handler holds already and whatever the connection thread has
    done, [respond_with_response] returns at once without an exception: the
    response is appended to the queue. *)
Theorem respond_never_blocks topt reqs calls sched h q resp :
  let s := run (sys_init topt reqs calls) sched in
  handlers (shared s) !! h = Some q →
  respond_with_response h resp (shared s)
  = Some (Return
            (set_handlers
               (<[h := Queue.mk 0 (Queue.items q ++ [resp])]>
                  (handlers (shared s)))
               (shared s))).
Proof.
  intros s Hq. subst s. apply respond_total; [|done].
  apply (inv_unbounded _ _ _ (sys_inv_run topt reqs calls sched)).
Qed.

(** The handler that [assert_request] returns denotes an object. *)
Lemma returned_handler_exists topt reqs calls sched j c h :
  let s := run (sys_init topt reqs calls) sched in
  aprocs s !! j = Some (c, ADone (Return h)) →
  is_Some (handlers (shared s) !! h).
Proof.
  intros s Hj. subst s.
  by eapply (inv_handlers _ _ _ (sys_inv_run topt reqs calls sched)).
Qed.

(** C9. The [timeout] given to the constructor (30 when none is given)
    stays the server's timeout, and both waits of [dispatch] are bounded by
    it: on an empty queue each of them gives up exactly when the time
    waited reaches it.  The [timeout] of [assert_request] is 30 when none
    is given. *)
Theorem timeouts_configured topt reqs calls sched :
  let s := run (sys_init topt reqs calls) sched in
  let server_timeout := default 30 topt in
  timeout (shared s) = server_timeout
  ∧ (∀ el r a q,
       handler_queues (shared s) !! a = Some q →
       Queue.items q = [] → 0 ≤ server_timeout →
       dispatch_step el (shared s) r (DGetHandler a)
       = if decide (server_timeout ≤ el)
         then Some (EvNoHandler r, shared s,
                    DFinally (Return (respond_nohandler r)))
         else None)
  ∧ (∀ el r h q,
       handlers (shared s) !! h = Some q →
       Queue.items q = [] → 0 ≤ server_timeout →
       dispatch_step el (shared s) r (DGetResponse h)
       = if decide (server_timeout ≤ el)
         then Some (EvNoResponse r h,
                    add_assertion (AssertionError (msg_no_response r)) (shared s),
                    DFinally (Raise (AssertionError (msg_no_response r))))
         else None)
  ∧ (∀ c m, call_timeout (assert_request_call c m None) = 30).
Proof.
  intros s server_timeout. subst s server_timeout.
  pose proof (sys_inv_run topt reqs calls sched) as Hinv.
  pose proof (inv_timeout _ _ _ Hinv) as Hto.
  split_and!; [done| | |done].
  - intros el r a q Ha Hq Hpos. simpl. rewrite Ha. simpl.
    unfold Queue.get. rewrite Hq, Hto.
    destruct (Z.ltb_spec (default default_timeout topt) 0);
      [unfold default_timeout in *; lia|].
    unfold default_timeout. case_decide.
    + by rewrite (proj2 (Z.leb_le _ _)).
    + by rewrite (proj2 (Z.leb_gt _ _)) by lia.
  - intros el r h q Hh Hq Hpos. simpl. rewrite Hh. simpl.
    unfold Queue.get. rewrite Hq, Hto.
    destruct (Z.ltb_spec (default default_timeout topt) 0);
      [unfold default_timeout in *; lia|].
    unfold default_timeout. case_decide.
    + by rewrite (proj2 (Z.leb_le _ _)).
    + by rewrite (proj2 (Z.leb_gt _ _)) by lia.
Qed.

(** C10. A request that an [assert_request] call has taken and found not to
    match stays consumed: in every later state it is absent from the request
    queue and no other call has taken it. *)
Theorem mismatched_request_stays_consumed
    topt reqs calls sched sched' j m r :
  let s := run (sys_init topt reqs calls) sched in
  let s' := run s sched' in
  NoDup reqs →
  (Asserter j, EvMatcher m) ∈ trace s →
  (Asserter j, EvPop r) ∈ trace s →
  difference m r ≠ [] →
  (r ∉ Queue.items (request_queue (shared s')))
  ∧ (∀ j', (Asserter j', EvPop r) ∈ trace s' → j' = j)
  ∧ NoDup (popped (trace s')).
Proof.
  intros s s' Hnd _ Hpop _. subst s s'.
  pose proof (trace_run (run (sys_init topt reqs calls) sched) sched') as Hpre.
  rewrite <- run_app in *.
  pose proof (elem_of_prefix _ _ _ Hpop Hpre) as Hpop'.
  destruct (invariants_run topt reqs calls (sched ++ sched') Hnd) as [_ Hc].
  pose proof (inv_nodup _ _ Hc) as Hdup.
  apply NoDup_app in Hdup as (_ & Hq & Hdup).
  apply NoDup_app in Hdup as (Hdup & _ & _).
  split_and!; [|intros j' Hj'|done].
  - intros Hin. apply (Hq r Hin). apply elem_of_app. left.
    by eapply elem_of_popped.
  - by pose proof (pop_unique _ _ _ _ Hdup Hj' Hpop') as [= ->].
Qed.

End Properties.

(** * The queues and the routing of handlers *)

(** ** The queues are first in, first out *)

Section Fifo.
Context `{B : HttpServerBase}.
Implicit Types (σ : state) (s : sys) (tr : list (actor * event)).

Lemma published_snoc tr x :
  published (tr ++ [x]) = published tr ++ option_list (is_publish x).
Proof. unfold published. rewrite omap_app. simpl. by destruct (is_publish x). Qed.

Lemma popped_snoc_list tr x :
  popped (tr ++ [x]) = popped tr ++ option_list (is_pop x).
Proof. unfold popped. rewrite omap_app. simpl. by destruct (is_pop x). Qed.

Lemma pushed_snoc h tr x :
  pushed h (tr ++ [x]) = pushed h tr ++ option_list (is_push h x).
Proof. unfold pushed. rewrite omap_app. simpl. by destruct (is_push h x). Qed.

Lemma taken_snoc h tr x :
  taken h (tr ++ [x]) = taken h tr ++ option_list (is_take h x).
Proof. unfold taken. rewrite omap_app. simpl. by destruct (is_take h x). Qed.

Lemma created_snoc tr x :
  created (tr ++ [x]) = created tr ++ option_list (is_new x).
Proof. unfold created. rewrite omap_app. simpl. by destruct (is_new x). Qed.

Lemma registered_snoc tr x :
  registered (tr ++ [x]) = registered tr ++ option_list (is_register x).
Proof.
  unfold registered. rewrite omap_app. simpl. by destruct (is_register x).
Qed.

Lemma fifo_ok_init topt : fifo_ok (BlockingHttpServer_init topt) [].
Proof. by split. Qed.

Lemma lookup_snoc_None {A} (l : list A) x i :
  (l ++ [x]) !! i = None → l !! i = None.
Proof. rewrite !lookup_ge_None, length_app. simpl. lia. Qed.

Lemma lookup_snoc_cases {A} (l : list A) x i y :
  (l ++ [x]) !! i = Some y →
  l !! i = Some y ∨ (l !! i = None ∧ i = length l ∧ y = x).
Proof.
  intros Hi. apply lookup_app_Some in Hi as [?|[Hle Hi]]; [by left|right].
  destruct (i - length l)%nat eqn:Hd; simpl in Hi; [|done].
  simplify_eq. split_and!; [|lia|done]. apply lookup_ge_None. lia.
Qed.

Lemma dispatch_step_fifo el σ r pc ev σ' pc' a tr :
  fifo_ok σ tr → dispatch_step el σ r pc = Some (ev, σ', pc') →
  fifo_ok σ' (tr ++ [(a, ev)]).
Proof.
  intros [Hreq Hresp Hun] Hstep.
  destruct pc; simpl in Hstep; step_inv Hstep;
    repeat match goal with
    | H : Queue.put_nowait _ _ = Some _ |- _ => apply put_nowait_Some in H as [? ?]
    | H : Queue.get _ _ _ = Queue.Got _ _ |- _ => apply get_Got in H as [? ?]
    end;
    (split;
     [rewrite published_snoc, popped_snoc_list
     |intros h0 q0; rewrite pushed_snoc, taken_snoc
     |intros h0; rewrite pushed_snoc, taken_snoc]);
    simpl; rewrite ?app_nil_r; eauto.
  - (* publish *)
    match goal with H : Queue.items _ = _ |- _ => rewrite H end.
    by rewrite Hreq, app_assoc.
  - (* a response is taken *)
    unfold is_take. simpl. intros Hq0. case_decide as Hh.
    + subst h0. rewrite list_lookup_insert_eq in Hq0 by by eapply lookup_lt_Some.
      simplify_eq. simpl. rewrite <- app_assoc. simpl.
      match goal with H : Queue.items _ = _ |- _ => rewrite <- H end. eauto.
    + rewrite list_lookup_insert_ne in Hq0 by done. rewrite app_nil_r. eauto.
  - unfold is_take. simpl. intros Hq0.
    assert (handlers σ !! h0 = None) as Hn.
    { revert Hq0. rewrite !lookup_ge_None, length_insert. done. }
    case_decide; [congruence|]. rewrite app_nil_r. eauto.
Qed.

Lemma respond_fifo h resp σ σ' a tr :
  fifo_ok σ tr → respond_with_response h resp σ = Some (Return σ') →
  fifo_ok σ' (tr ++ [(a, EvRespond h resp)]).
Proof.
  intros [Hreq Hresp Hun] Hstep. step_inv Hstep.
  match goal with H : Queue.put_nowait _ _ = Some _ |- _ =>
    apply put_nowait_Some in H as [? Hitems] end.
  split; simpl.
  - rewrite published_snoc, popped_snoc_list. simpl. by rewrite !app_nil_r.
  - intros h0 q0 Hq0. rewrite pushed_snoc, taken_snoc. simpl.
    unfold is_push. simpl. rewrite app_nil_r. case_decide as Hh.
    + subst h0. rewrite list_lookup_insert_eq in Hq0 by by eapply lookup_lt_Some.
      simplify_eq. rewrite Hitems, app_assoc. f_equal. eauto.
    + rewrite list_lookup_insert_ne in Hq0 by done. rewrite app_nil_r. eauto.
  - intros h0 Hq0. rewrite pushed_snoc, taken_snoc. simpl.
    assert (handlers σ !! h0 = None) as Hn.
    { revert Hq0. rewrite !lookup_ge_None, length_insert. done. }
    unfold is_push. simpl. case_decide; [congruence|].
    rewrite !app_nil_r. eauto.
Qed.

Lemma fifo_ok_fail σ tr a e : fifo_ok σ tr → fifo_ok σ (tr ++ [(a, EvFail e)]).
Proof.
  intros [Hreq Hresp Hun]. split.
  - rewrite published_snoc, popped_snoc_list. simpl. by rewrite !app_nil_r.
  - intros h q Hq. rewrite pushed_snoc, taken_snoc. simpl.
    rewrite !app_nil_r. eauto.
  - intros h Hq. rewrite pushed_snoc, taken_snoc. simpl.
    rewrite !app_nil_r. eauto.
Qed.

Lemma assert_request_step_fifo el σ c pc ev σ' pc' a tr :
  fifo_ok σ tr → assert_request_step el σ c pc = Some (ev, σ', pc') →
  fifo_ok σ' (tr ++ [(a, ev)]).
Proof.
  intros Hf Hstep. pose proof Hf as [Hreq Hresp Hun].
  destruct pc as [|m|m r|m r diff h a0|m r diff h|o]; simpl in Hstep.
  - step_inv Hstep.
    + by apply fifo_ok_fail.
    + split; [rewrite published_snoc, popped_snoc_list
             |intros h0 q0; rewrite pushed_snoc, taken_snoc
             |intros h0; rewrite pushed_snoc, taken_snoc];
        simpl; rewrite ?app_nil_r; eauto.
  - step_inv Hstep; try by apply fifo_ok_fail.
    + match goal with H : Queue.get _ _ _ = Queue.Got _ _ |- _ =>
        apply get_Got in H as [? Hitems] end.
      split; [rewrite published_snoc, popped_snoc_list
             |intros h0 q0; rewrite pushed_snoc, taken_snoc
             |intros h0; rewrite pushed_snoc, taken_snoc];
        simpl; rewrite ?app_nil_r; eauto.
      rewrite Hreq, Hitems, <- app_assoc. done.
    + split; [rewrite published_snoc, popped_snoc_list
             |intros h0 q0; rewrite pushed_snoc, taken_snoc
             |intros h0; rewrite pushed_snoc, taken_snoc];
        simpl; rewrite ?app_nil_r; eauto.
  - (* a handler is created *)
    assert (fifo_ok (BlockingRequestHandler_init σ).2 (tr ++ [(a, ev)])
            ∧ σ' = (BlockingRequestHandler_init σ).2) as [? ->]; [|done].
    step_inv Hstep; (split; [|done]);
      (split; [rewrite published_snoc, popped_snoc_list
              |intros h0 q0; rewrite pushed_snoc, taken_snoc
              |intros h0; rewrite pushed_snoc, taken_snoc]);
      simpl; rewrite ?app_nil_r; eauto;
      try (intros [Hq0|(Hq0 & _ & ->)]%lookup_snoc_cases;
           [eauto|by destruct (Hun _ Hq0) as [-> ->]]);
      try (intros Hq0%lookup_snoc_None; eauto).
  - step_inv Hstep; try by apply fifo_ok_fail.
    all: split; [rewrite published_snoc, popped_snoc_list
             |intros h0 q0; rewrite pushed_snoc, taken_snoc
             |intros h0; rewrite pushed_snoc, taken_snoc];
        simpl; rewrite ?app_nil_r; eauto.
  - destruct (respond_with_response h (respond_nohandler r) σ)
      as [[σ2|e]|] eqn:Hr; simplify_eq/=.
    + by eapply respond_fifo.
    + by apply fifo_ok_fail.
  - done.
Qed.

End Fifo.

(** ** Where the references come from *)

Section Route.
Context `{B : HttpServerBase}.
Implicit Types (σ : state) (s : sys) (tr : list (actor * event)).

Lemma elem_of_snoc {A} (l : list A) (x y : A) :
  x ∈ l ++ [y] ↔ x ∈ l ∨ x = y.
Proof. rewrite elem_of_app, list_elem_of_singleton. done. Qed.

Lemma elem_of_created tr a r h a0 : (a, EvNew r h a0) ∈ tr → h ∈ created tr.
Proof.
  intros Hin. unfold created. apply list_elem_of_omap. by exists (a, EvNew r h a0).
Qed.

Lemma elem_of_registered tr a r a0 :
  (a, EvRegister r a0) ∈ tr → a0 ∈ registered tr.
Proof.
  intros Hin. unfold registered. apply list_elem_of_omap.
  by exists (a, EvRegister r a0).
Qed.

(** One queue is registered for one request. *)
Lemma register_unique tr x1 x2 r1 r2 a :
  NoDup (registered tr) →
  (x1, EvRegister r1 a) ∈ tr → (x2, EvRegister r2 a) ∈ tr → r1 = r2.
Proof.
  induction tr as [|[x ev] tr IH]; intros Hdup H1 H2.
  { by apply elem_of_nil in H1. }
  unfold registered in Hdup. simpl in Hdup.
  apply elem_of_cons in H1 as [H1|H1], H2 as [H2|H2]; simplify_eq.
  - done.
  - simpl in Hdup. apply NoDup_cons in Hdup as [Hn _].
    destruct Hn. by eapply elem_of_registered.
  - simpl in Hdup. apply NoDup_cons in Hdup as [Hn _].
    destruct Hn. by eapply elem_of_registered.
  - apply IH; try done. unfold is_register in Hdup.
    destruct ev; simpl in Hdup; try done. by apply NoDup_cons in Hdup as [_ ?].
Qed.

(** One handler is created by one call, for one request. *)
Lemma new_unique tr x1 x2 r1 r2 h a1 a2 :
  NoDup (created tr) →
  (x1, EvNew r1 h a1) ∈ tr → (x2, EvNew r2 h a2) ∈ tr →
  x1 = x2 ∧ r1 = r2 ∧ a1 = a2.
Proof.
  induction tr as [|[x ev] tr IH]; intros Hdup H1 H2.
  { by apply elem_of_nil in H1. }
  unfold created in Hdup. simpl in Hdup.
  apply elem_of_cons in H1 as [H1|H1], H2 as [H2|H2]; simplify_eq.
  - done.
  - simpl in Hdup. apply NoDup_cons in Hdup as [Hn _].
    destruct Hn. by eapply elem_of_created.
  - simpl in Hdup. apply NoDup_cons in Hdup as [Hn _].
    destruct Hn. by eapply elem_of_created.
  - apply IH; try done. unfold is_new in Hdup.
    destruct ev; simpl in Hdup; try done. by apply NoDup_cons in Hdup as [_ ?].
Qed.

Lemma route_ok_init topt : route_ok (BlockingHttpServer_init topt) [].
Proof.
  split; simpl; try (intros; by decompose_list_elem_of);
    try apply NoDup_nil_2.
Qed.

(** Steps that create no object and deliver nothing. *)
Lemma route_ok_weaken σ σ' tr x :
  route_ok σ tr →
  (∀ h, is_Some (handlers σ !! h) → is_Some (handlers σ' !! h)) →
  (∀ a, is_Some (handler_queues σ !! a) → is_Some (handler_queues σ' !! a)) →
  (∀ r a, request_handlers σ' !! r = Some a → request_handlers σ !! r = Some a) →
  (∀ a q' h, handler_queues σ' !! a = Some q' → h ∈ Queue.items q' →
             ∃ q, handler_queues σ !! a = Some q ∧ h ∈ Queue.items q) →
  is_new x = None → is_register x = None →
  (∀ i r h, x = (Conn i, EvHandler r h) →
            ∃ j, (Asserter j, EvDeliver r h) ∈ tr) →
  route_ok σ' (tr ++ [x]).
Proof.
  intros [Hc Hcn Hr Hrn Hd Hn Hi Hh] H1 H2 H3 H4 Hnew Hreg H6.
  split.
  - rewrite created_snoc, Hnew, app_nil_r. eauto.
  - by rewrite created_snoc, Hnew, app_nil_r.
  - rewrite registered_snoc, Hreg, app_nil_r. eauto.
  - by rewrite registered_snoc, Hreg, app_nil_r.
  - intros r a Hra. destruct (Hd r a) as [i Hin]; [eauto|].
    exists i. apply elem_of_snoc. by left.
  - intros j r h a [Hin|Heq]%elem_of_snoc; [|by subst x].
    destruct (Hn _ _ _ _ Hin) as [i Hi']. exists i. apply elem_of_snoc. by left.
  - intros a q' h Ha Hin. destruct (H4 _ _ _ Ha Hin) as (q & Hq & Hhq).
    destruct (Hi _ _ _ Hq Hhq) as (j & r & Hn1 & Hd1).
    exists j, r. rewrite !elem_of_snoc. eauto.
  - intros i r h [Hin|Heq]%elem_of_snoc.
    + destruct (Hh _ _ _ Hin) as [j Hj]. exists j. apply elem_of_snoc. by left.
    + destruct (H6 _ _ _ (eq_sym Heq)) as [j Hj]. exists j.
      apply elem_of_snoc. by left.
Qed.

Ltac route_boring Hok :=
  eapply route_ok_weaken; [exact Hok|..]; simpl; solve [eauto|done].

Lemma NoDup_snoc_fresh {A} (l : list A) x : NoDup l → x ∉ l → NoDup (l ++ [x]).
Proof.
  intros Hl Hx. apply NoDup_app. split_and!; [done| |apply NoDup_singleton].
  intros y Hy ->%list_elem_of_singleton. done.
Qed.

Lemma not_is_Some_length {A} (l : list A) : ¬ is_Some (l !! length l).
Proof. rewrite lookup_lt_is_Some. lia. Qed.

Lemma insert_items_subset {A} (l : list (Queue.t A)) a q q' a0 q0 x :
  l !! a = Some q → (∀ y, y ∈ Queue.items q' → y ∈ Queue.items q) →
  <[a := q']> l !! a0 = Some q0 → x ∈ Queue.items q0 →
  ∃ q1, l !! a0 = Some q1 ∧ x ∈ Queue.items q1.
Proof.
  intros Ha Hsub Ha0 Hx.
  apply list_lookup_insert_Some in Ha0 as [(-> & <- & _)|[_ Ha0]]; eauto.
Qed.

Lemma dispatch_step_route el σ r pc ev σ' pc' i tr :
  route_ok σ tr → dpc_routed tr r pc →
  dispatch_step el σ r pc = Some (ev, σ', pc') →
  route_ok σ' (tr ++ [(Conn i, ev)])
  ∧ dpc_routed (tr ++ [(Conn i, ev)]) r pc'.
Proof.
  intros Hok Hpc Hstep. pose proof Hok as [Hc Hcn Hr Hrn Hd Hn Hi Hh].
  destruct pc as [| | |a|h|o|o]; simpl in Hstep, Hpc.
  - (* line 139 *)
    step_inv Hstep. split; [|done]. split; simpl.
    + rewrite created_snoc. simpl. rewrite app_nil_r. eauto.
    + by rewrite created_snoc, app_nil_r.
    + rewrite registered_snoc. simpl.
      intros a [Ha| ->]%elem_of_snoc; [|apply is_Some_new].
      apply is_Some_snoc. eauto.
    + rewrite registered_snoc. simpl. apply NoDup_snoc_fresh; [done|].
      intros Hin. by apply (not_is_Some_length (handler_queues σ)), Hr.
    + intros r0 a0. rewrite lookup_insert. case_decide as Hr0.
      * intros [= <-]. subst r0. exists i. apply elem_of_snoc. by right.
      * intros Ha0. destruct (Hd _ _ Ha0) as [i0 Hi0].
        exists i0. apply elem_of_snoc. by left.
    + intros j r0 h a0 [Hin|Heq]%elem_of_snoc; [|done].
      destruct (Hn _ _ _ _ Hin) as [i0 Hi0]. exists i0.
      apply elem_of_snoc. by left.
    + intros a0 q0 h Ha0 Hin.
      apply lookup_snoc_Some in Ha0 as [Ha0| ->];
        [|by apply elem_of_nil in Hin].
      destruct (Hi _ _ _ Ha0 Hin) as (j & r0 & ? & ?).
      exists j, r0. rewrite !elem_of_snoc. eauto.
    + intros i0 r0 h [Hin|Heq]%elem_of_snoc; [|done].
      destruct (Hh _ _ _ Hin) as [j Hj]. exists j. apply elem_of_snoc. by left.
  - (* line 141 *)
    step_inv Hstep; (split; [|done]); route_boring Hok.
  - (* line 144, lookup *)
    step_inv Hstep; (split; [route_boring Hok|]); simpl; [|done].
    destruct (Hd r a) as [i0 Hi0]; [done|].
    exists i0. apply elem_of_snoc. by left.
  - (* line 144, get *)
    destruct (handler_queues σ !! a) as [q|] eqn:Ha; simplify_eq/=.
    destruct (Queue.get q (timeout σ) el) as [h q'| | |] eqn:Hget;
      simplify_eq/=; (split; [|done]); try (route_boring Hok).
    apply get_Got in Hget as [_ Hitems].
    eapply route_ok_weaken; [exact Hok|..]; simpl;
      try (solve [eauto|done]).
    + intros a0 Ha0. by apply is_Some_insert.
    + intros a0 q0 h0. eapply insert_items_subset; [done|].
      intros y Hy. rewrite Hitems. by right.
    + intros i0 r0 h0 [= <- <- <-].
      destruct (Hi a q h) as (j & r' & Hnew & Hdel); [done|rewrite Hitems; by left|].
      destruct (Hn _ _ _ _ Hnew) as [i1 Hi1].
      destruct Hpc as [i2 Hi2].
      rewrite (register_unique _ _ _ _ _ _ Hrn Hi2 Hi1). eauto.
  - (* line 149 *)
    destruct (handlers σ !! h) as [q|] eqn:Hq; simplify_eq/=.
    destruct (Queue.get q (timeout σ) el) as [resp q'| | |] eqn:Hget;
      simplify_eq/=; (split; [|done]); try (route_boring Hok).
    eapply route_ok_weaken; [exact Hok|..]; simpl;
      try (solve [eauto|done]).
    intros h0 Hh0. by apply is_Some_insert.
  - (* line 155 *)
    step_inv Hstep; (split; [|done]); eapply route_ok_weaken; [exact Hok|..]; simpl;
      try (solve [eauto|done]).
    intros r0 a0. rewrite lookup_delete. by case_decide.
  - done.
Qed.

Lemma respond_route h resp σ σ' tr :
  route_ok σ tr → respond_with_response h resp σ = Some (Return σ') →
  route_ok σ' (tr ++ [(Caller, EvRespond h resp)]).
Proof.
  intros Hok Hstep. step_inv Hstep. eapply route_ok_weaken; [exact Hok|..]; simpl;
      try (solve [eauto|done]).
  intros h0 Hh0. by apply is_Some_insert.
Qed.

Lemma assert_request_step_route el σ c pc ev σ' pc' j tr :
  route_ok σ tr →
  (∀ m r diff h a, pc = ADeliver m r diff h a → (Asserter j, EvNew r h a) ∈ tr) →
  assert_request_step el σ c pc = Some (ev, σ', pc') →
  route_ok σ' (tr ++ [(Asserter j, ev)]).
Proof.
  intros Hok Hpc Hstep. pose proof Hok as [Hc Hcn Hr Hrn Hd Hn Hi Hh].
  destruct pc as [|m|m r|m r diff h a|m r diff h|o]; simpl in Hstep.
  - step_inv Hstep; route_boring Hok.
  - step_inv Hstep; route_boring Hok.
  - (* line 116 *)
    unfold BlockingRequestHandler_init in Hstep. simpl in Hstep.
    destruct (request_handlers σ !! r) as [a|] eqn:Ha; simplify_eq/=.
    + split; simpl.
      * rewrite created_snoc. simpl.
        intros h [Hin| ->]%elem_of_snoc; [|apply is_Some_new].
        apply is_Some_snoc. eauto.
      * rewrite created_snoc. simpl. apply NoDup_snoc_fresh; [done|].
        intros Hin. by apply (not_is_Some_length (handlers σ)), Hc.
      * rewrite registered_snoc. simpl. rewrite app_nil_r. eauto.
      * by rewrite registered_snoc, app_nil_r.
      * intros r0 a0 Ha0. destruct (Hd _ _ Ha0) as [i0 Hi0].
        exists i0. apply elem_of_snoc. by left.
      * intros j0 r0 h0 a0 [Hin|Heq]%elem_of_snoc.
        -- destruct (Hn _ _ _ _ Hin) as [i0 Hi0]. exists i0.
           apply elem_of_snoc. by left.
        -- simplify_eq. destruct (Hd _ _ Ha) as [i0 Hi0]. exists i0.
           apply elem_of_snoc. by left.
      * intros a0 q0 h0 Ha0 Hin.
        destruct (Hi _ _ _ Ha0 Hin) as (j0 & r0 & ? & ?).
        exists j0, r0. rewrite !elem_of_snoc. eauto.
      * intros i0 r0 h0 [Hin|Heq]%elem_of_snoc; [|done].
        destruct (Hh _ _ _ Hin) as [j0 Hj0]. exists j0.
        apply elem_of_snoc. by left.
    + eapply route_ok_weaken; [exact Hok|..]; simpl;
      try (solve [eauto|done]).
      intros h0 Hh0. by apply is_Some_snoc.
  - (* line 118 *)
    specialize (Hpc _ _ _ _ _ eq_refl).
    destruct (handler_queues σ !! a) as [q|] eqn:Ha; simplify_eq/=.
    destruct (Queue.put_nowait q h) as [q'|] eqn:Hput; simplify_eq/=;
      [|route_boring Hok].
    apply put_nowait_Some in Hput as [_ Hitems].
    split; simpl.
    + rewrite created_snoc. simpl. rewrite app_nil_r. eauto.
    + by rewrite created_snoc, app_nil_r.
    + rewrite registered_snoc. simpl. rewrite app_nil_r.
      intros a0 Ha0. apply is_Some_insert. eauto.
    + by rewrite registered_snoc, app_nil_r.
    + intros r0 a0 Ha0. destruct (Hd _ _ Ha0) as [i0 Hi0].
      exists i0. apply elem_of_snoc. by left.
    + intros j0 r0 h0 a0 [Hin|Heq]%elem_of_snoc; [|done].
      destruct (Hn _ _ _ _ Hin) as [i0 Hi0]. exists i0.
      apply elem_of_snoc. by left.
    + intros a0 q0 h0 Ha0 Hin.
      apply list_lookup_insert_Some in Ha0 as [(-> & <- & _)|[_ Ha0]].
      * rewrite Hitems in Hin. apply elem_of_snoc in Hin as [Hin| ->].
        -- destruct (Hi _ _ _ Ha Hin) as (j0 & r0 & ? & ?).
           exists j0, r0. rewrite !elem_of_snoc. eauto.
        -- exists j, r. rewrite !elem_of_snoc. eauto.
      * destruct (Hi _ _ _ Ha0 Hin) as (j0 & r0 & ? & ?).
        exists j0, r0. rewrite !elem_of_snoc. eauto.
    + intros i0 r0 h0 [Hin|Heq]%elem_of_snoc; [|done].
      destruct (Hh _ _ _ Hin) as [j0 Hj0]. exists j0.
      apply elem_of_snoc. by left.
  - (* line 121 *)
    destruct (respond_with_response h (respond_nohandler r) σ)
      as [[σ2|e]|] eqn:Hresp; simplify_eq/=; [|route_boring Hok].
    step_inv Hresp. eapply route_ok_weaken; [exact Hok|..]; simpl;
      try (solve [eauto|done]).
    intros h0 Hh0. by apply is_Some_insert.
  - done.
Qed.

End Route.

Section Runs.
Context `{B : HttpServerBase}.
Implicit Types (σ : state) (s : sys) (tr : list (actor * event)).

Lemma fifo_run topt reqs calls sched :
  fifo_ok (shared (run (sys_init topt reqs calls) sched))
          (trace (run (sys_init topt reqs calls) sched)).
Proof.
  apply (run_invariant (λ s, fifo_ok (shared s) (trace s))).
  - apply fifo_ok_init.
  - intros s s' Hs Htr.
    destruct Htr as [i el r pc ev σ' pc' Hi Hst|j el c pc ev σ' pc' Hj Hst
                    |h resp σ' Hr|h resp e Hr]; simpl.
    + by eapply dispatch_step_fifo.
    + by eapply assert_request_step_fifo.
    + by eapply respond_fifo.
    + by apply fifo_ok_fail.
Qed.

Lemma dpc_routed_mono tr x r pc :
  dpc_routed tr r pc → dpc_routed (tr ++ [x]) r pc.
Proof.
  destruct pc; simpl; try done. intros [i Hi]. exists i.
  apply elem_of_snoc. by left.
Qed.

Lemma route_inv_init topt reqs calls : route_inv (sys_init topt reqs calls).
Proof.
  split; simpl; [apply route_ok_init|].
  intros i r pc Hi. apply list_lookup_fmap_Some in Hi as (r' & Hr & Heq).
  by simplify_eq.
Qed.

Lemma route_inv_transition topt calls s s' :
  sys_inv topt calls s → route_inv s → transition s s' → route_inv s'.
Proof.
  intros Hinv [Hok Hds] Htr.
  destruct Htr as [i el r pc ev σ' pc' Hi Hst|j el c pc ev σ' pc' Hj Hst
                  |h resp σ' Hr|h resp e Hr]; simpl.
  - destruct (dispatch_step_route _ _ _ _ _ _ _ i _ Hok (Hds _ _ _ Hi) Hst)
      as [Hok' Hpc'].
    split; simpl; [done|].
    intros i' r' pc0 Hi'.
    destruct (lookup_insert_thread _ _ _ _ _ _ _ _ Hi Hi')
      as [(-> & -> & ->)|[Hne Hi'']]; [done|].
    apply dpc_routed_mono. eauto.
  - split; simpl.
    + eapply assert_request_step_route; [done| |done].
      intros m r diff h a ->.
      pose proof (inv_ashape _ _ _ Hinv _ _ _ Hj) as Hs.
      apply elem_of_hist. inversion Hs; subst.
      do 2 (apply elem_of_cons; right). apply elem_of_cons. by left.
    + intros i r pc0 Hi. apply dpc_routed_mono. eauto.
  - split; simpl; [eapply respond_route; [exact Hok|exact Hr]|].
    intros i r pc0 Hi. apply dpc_routed_mono. eauto.
  - split; simpl; [|intros i r pc0 Hi; apply dpc_routed_mono; eauto].
    eapply route_ok_weaken; [exact Hok|..]; simpl; solve [eauto|done].
Qed.

Lemma route_run topt reqs calls sched :
  route_inv (run (sys_init topt reqs calls) sched).
Proof.
  apply (run_invariant (λ s, sys_inv topt calls s ∧ route_inv s)).
  - split; [apply sys_inv_init|apply route_inv_init].
  - intros s s' [Hs Hr] Htr. split; [by eapply sys_inv_transition|].
    by eapply route_inv_transition.
Qed.

End Runs.

(** ** Timeouts and the dictionary *)

Section Waits.
Context `{B : HttpServerBase}.
Implicit Types (σ : state) (s : sys) (tr : list (actor * event)).

Lemma get_BadTimeout {A} (q : Queue.t A) t el :
  Queue.get q t el = Queue.BadTimeout ↔ t < 0.
Proof.
  unfold Queue.get. destruct (Z.ltb_spec t 0); [done|].
  split; [|lia]. by repeat case_match.
Qed.

Lemma get_Got_timeout {A} (q : Queue.t A) t el x q' :
  Queue.get q t el = Queue.Got x q' → 0 ≤ t.
Proof. unfold Queue.get. destruct (Z.ltb_spec t 0); [done|lia]. Qed.

Lemma dispatch_step_wait el σ r pc ev σ' pc' :
  dispatch_step el σ r pc = Some (ev, σ', pc') → wait_event_ok (timeout σ) ev.
Proof.
  intros Hstep. destruct pc as [| | |a|h|o|o]; simpl in Hstep;
    try (step_inv Hstep; done).
  - destruct (handler_queues σ !! a) as [q|]; simplify_eq/=.
    destruct (Queue.get q (timeout σ) el) eqn:Hget; simplify_eq/=.
    + by eapply get_Got_timeout.
    + by apply get_Empty in Hget as [? _].
    + by apply get_BadTimeout in Hget.
  - destruct (handlers σ !! h) as [q|]; simplify_eq/=.
    destruct (Queue.get q (timeout σ) el) eqn:Hget; simplify_eq/=.
    + by eapply get_Got_timeout.
    + by apply get_Empty in Hget as [? _].
    + by apply get_BadTimeout in Hget.
Qed.

Lemma wait_run topt reqs calls sched i ev :
  (Conn i, ev) ∈ trace (run (sys_init topt reqs calls) sched) →
  wait_event_ok (default default_timeout topt) ev.
Proof.
  revert i ev.
  apply (run_invariant
           (λ s, sys_inv topt calls s
                 ∧ ∀ i ev, (Conn i, ev) ∈ trace s →
                           wait_event_ok (default default_timeout topt) ev)).
  - split; [apply sys_inv_init|]. intros i ev Hin. by apply elem_of_nil in Hin.
  - intros s s' [Hs Hw] Htr. split; [by eapply sys_inv_transition|].
    destruct Htr as [i el r pc ev σ' pc' Hi Hst|j el c pc ev σ' pc' Hj Hst
                    |h resp σ' Hr|h resp e Hr]; simpl;
      intros i0 ev0 [Hin|Heq]%elem_of_snoc; eauto; simplify_eq.
    rewrite <- (inv_timeout _ _ _ Hs). by eapply dispatch_step_wait.
Qed.

Lemma second_ok_step el σ c evs pc ev σ' pc' :
  ashape c evs pc → second_ok c evs →
  assert_request_step el σ c pc = Some (ev, σ', pc') →
  second_ok c (evs ++ [ev]).
Proof.
  intros Hs Hok Hstep.
  inversion Hs as [| |m Hm| | |m r Hm| |m r h a Hm| |m r h a Hm Hd|]; subst;
    simpl in Hstep; try done.
  - simpl. by destruct ev.
  - destruct (Queue.get (request_queue σ) (call_timeout c) el) eqn:Hget;
      simplify_eq/=.
    + by eapply get_Got_timeout.
    + by apply get_Empty in Hget as [? _].
    + by apply get_BadTimeout in Hget.
Qed.

Lemma second_run topt reqs calls sched j c pc :
  aprocs (run (sys_init topt reqs calls) sched) !! j = Some (c, pc) →
  second_ok c (hist (Asserter j) (trace (run (sys_init topt reqs calls) sched))).
Proof.
  revert j c pc.
  apply (run_invariant
           (λ s, sys_inv topt calls s
                 ∧ ∀ j c pc, aprocs s !! j = Some (c, pc) →
                             second_ok c (hist (Asserter j) (trace s)))).
  - split; [apply sys_inv_init|]. by intros j c pc Hj.
  - intros s s' [Hs Hw] Htr. split; [by eapply sys_inv_transition|].
    destruct Htr as [i el r pc ev σ' pc' Hi Hst|j el c pc ev σ' pc' Hj Hst
                    |h resp σ' Hr|h resp e Hr]; simpl;
      intros j0 c0 pc0 Hj0; rewrite hist_snoc.
    + rewrite decide_False by done. eauto.
    + destruct (lookup_insert_thread _ _ _ _ _ _ _ _ Hj Hj0)
        as [(-> & -> & ->)|[Hne Hj'']].
      * rewrite decide_True by done.
        eapply second_ok_step; [|by eapply Hw|done].
        by apply (inv_ashape _ _ _ Hs).
      * rewrite decide_False by congruence. eauto.
    + rewrite decide_False by done. eauto.
    + rewrite decide_False by done. eauto.
Qed.

Lemma dict_owned_run topt reqs calls sched :
  NoDup reqs → dict_owned (run (sys_init topt reqs calls) sched).
Proof.
  intros Hnd.
  apply (run_invariant
           (λ s, (sys_inv topt calls s ∧ conn_inv reqs s) ∧ dict_owned s)).
  - split; [split; [apply sys_inv_init|by apply conn_inv_init]|].
    intros r a Hr. simpl in Hr. by rewrite lookup_empty in Hr.
  - intros s s' [[Hs Hc] Ho] Htr.
    assert (conn_inv reqs s') as Hc'.
    { eapply conn_inv_transition; eauto. apply Hs. }
    split; [split; [by eapply sys_inv_transition|done]|].
    destruct Htr as [i el r pc ev σ' pc' Hi Hst|j el c pc ev σ' pc' Hj Hst
                    |h resp σ' Hr|h resp e Hr]; intros r0 a0 Hr0; simpl in *.
    + destruct (decide (r0 = r)) as [->|Hne].
      * exists i, pc'. split.
        { apply list_lookup_insert_eq. by eapply lookup_lt_Some. }
        pose proof (inv_reg _ _ Hc' i r pc') as Hreg. simpl in Hreg.
        rewrite list_lookup_insert_eq in Hreg by by eapply lookup_lt_Some.
        specialize (Hreg eq_refl). unfold reg_ok in Hreg.
        destruct (registered_at pc'); [done|congruence].
      * rewrite (dispatch_step_reg_other _ _ _ _ _ _ _ _ Hne Hst) in Hr0.
        destruct (Ho _ _ Hr0) as (i0 & pc0 & Hi0 & Hpc0).
        exists i0, pc0. split; [|done].
        rewrite list_lookup_insert_ne; [done|]. intros ->. congruence.
    + rewrite (assert_request_step_reg _ _ _ _ _ _ _ Hst) in Hr0. eauto.
    + destruct (respond_reg _ _ _ _ Hr) as (Heq & _ & _).
      rewrite Heq in Hr0. eauto.
    + eauto.
Qed.

End Waits.

(** ** Reading the traces *)

Section Reading.
Context `{B : HttpServerBase}.
Implicit Types (σ : state) (s : sys) (tr : list (actor * event)).

Lemma dispatch_step_actor el σ r pc ev σ' pc' i :
  dispatch_step el σ r pc = Some (ev, σ', pc') → actor_ok (Conn i, ev).
Proof.
  intros Hstep. destruct pc; simpl in Hstep; step_inv Hstep;
    unfold actor_ok; simpl; eauto.
Qed.

Lemma assert_request_step_actor el σ c pc ev σ' pc' j :
  assert_request_step el σ c pc = Some (ev, σ', pc') →
  actor_ok (Asserter j, ev).
Proof.
  intros Hstep. destruct pc; simpl in Hstep; step_inv Hstep;
    unfold actor_ok; simpl; eauto.
Qed.

Lemma actors_run topt reqs calls sched x :
  x ∈ trace (run (sys_init topt reqs calls) sched) → actor_ok x.
Proof.
  revert x.
  apply (run_invariant (λ s, ∀ x, x ∈ trace s → actor_ok x)).
  - intros x Hin. by apply elem_of_nil in Hin.
  - intros s s' Hs Htr.
    destruct Htr as [i el r pc ev σ' pc' Hi Hst|j el c pc ev σ' pc' Hj Hst
                    |h resp σ' Hr|h resp e Hr]; simpl;
      (intros x [Hin|Heq]%elem_of_snoc; [by eauto|subst x]).
    + by eapply dispatch_step_actor.
    + by eapply assert_request_step_actor.
    + by left.
    + done.
Qed.

(** A thread that has taken a step is one of the calls of the system. *)
Lemma asserter_of_event topt reqs calls sched j ev :
  let s := run (sys_init topt reqs calls) sched in
  (Asserter j, ev) ∈ trace s →
  ∃ c pc, aprocs s !! j = Some (c, pc)
          ∧ ashape c (hist (Asserter j) (trace s)) pc
          ∧ ev ∈ hist (Asserter j) (trace s).
Proof.
  intros s Hin. subst s.
  pose proof (sys_inv_run topt reqs calls sched) as Hinv.
  apply elem_of_hist in Hin.
  destruct (aprocs (run (sys_init topt reqs calls) sched) !! j)
    as [[c pc]|] eqn:Hj.
  - exists c, pc. split_and!; [done| |done]. by apply (inv_ashape _ _ _ Hinv).
  - rewrite (inv_ahist _ _ _ Hinv _ Hj) in Hin. by apply elem_of_nil in Hin.
Qed.

Lemma conn_of_event topt reqs calls sched i ev :
  let s := run (sys_init topt reqs calls) sched in
  NoDup reqs →
  (Conn i, ev) ∈ trace s →
  ∃ r pc, dprocs s !! i = Some (r, pc)
          ∧ dshape r (hist (Conn i) (trace s)) pc
          ∧ ev ∈ hist (Conn i) (trace s).
Proof.
  intros s Hnd Hin. subst s.
  destruct (invariants_run topt reqs calls sched Hnd) as [_ Hc].
  apply elem_of_hist in Hin.
  destruct (dprocs (run (sys_init topt reqs calls) sched) !! i)
    as [[r pc]|] eqn:Hi.
  - exists r, pc. split_and!; [done| |done]. by apply (inv_dshape _ _ Hc).
  - rewrite (inv_dhist _ _ Hc _ Hi) in Hin. by apply elem_of_nil in Hin.
Qed.

(** The steps of [dispatch(r)] are about [r]. *)
Lemma dshape_handler r evs pc r' h :
  dshape r evs pc → EvHandler r' h ∈ evs → r' = r.
Proof.
  induction 1 as [| | | | | | | | | |evs o Hs IH]; intros Hin;
    decompose_list_elem_of; simplify_eq; try done.
  by apply IH.
Qed.

Lemma dshape_response r evs pc r' h resp :
  dshape r evs pc → EvResponse r' h resp ∈ evs →
  r' = r ∧ EvHandler r h ∈ evs
  ∧ (pc = DFinally (Return resp) ∨ pc = DDone (Return resp)).
Proof.
  induction 1 as [| | | | | | | | | |evs o Hs IH]; intros Hin;
    decompose_list_elem_of; simplify_eq.
  - split_and!; [done| |by left].
    do 3 (apply elem_of_cons; right). apply elem_of_cons. by left.
  - destruct IH as (-> & Hh & [Hpc|Hpc]); [done| |done].
    simplify_eq. split_and!; [done| |by right].
    apply elem_of_app. by left.
Qed.

Lemma dshape_no_response_handler r evs pc r' h :
  dshape r evs pc → EvNoResponse r' h ∈ evs →
  EvHandler r h ∈ evs ∧ ∀ r'' h' resp, EvResponse r'' h' resp ∉ evs.
Proof.
  induction 1 as [| | | | | | | | | |evs o Hs IH]; intros Hin;
    decompose_list_elem_of; simplify_eq.
  - split.
    + do 3 (apply elem_of_cons; right). apply elem_of_cons. by left.
    + intros r'' h' resp Hr. by decompose_list_elem_of.
  - destruct IH as [Hh Hn]; [done|]. split.
    + apply elem_of_app. by left.
    + intros r'' h' resp [Hr|Hr]%elem_of_app; [by eapply Hn|].
      by decompose_list_elem_of.
Qed.

(** A terminated [dispatch] call has put its request on the queue. *)
Lemma dshape_done_published r evs o :
  dshape r evs (DDone o) → EvPublish r ∈ evs.
Proof.
  intros Hs. inversion Hs as [| | | | | | | | | |evs' o' Hs']; subst.
  apply elem_of_app. left.
  inversion Hs'; subst; apply elem_of_cons; right; apply elem_of_cons; by left.
Qed.

(** The ways in which [dispatch(r)] ends. *)
Lemma dshape_done r evs o :
  dshape r evs (DDone o) →
  (o = Return (respond_nohandler r) ∧ EvNoHandler r ∈ evs)
  ∨ (∃ h resp, o = Return resp ∧ EvResponse r h resp ∈ evs)
  ∨ (∃ h, o = Raise (AssertionError (msg_no_response r))
          ∧ EvNoResponse r h ∈ evs)
  ∨ (o = Raise (ValueError msg_bad_timeout)
     ∧ EvFail (ValueError msg_bad_timeout) ∈ evs).
Proof.
  intros Hs. inversion Hs as [| | | | | | | | | |evs' o' Hs']; subst.
  inversion Hs'; subst.
  - left. split; [done|]. apply elem_of_app. left.
    do 3 (apply elem_of_cons; right). apply elem_of_cons. by left.
  - do 3 right. split; [done|]. apply elem_of_app. left.
    do 3 (apply elem_of_cons; right). apply elem_of_cons. by left.
  - right. left. eexists _, _. split; [done|]. apply elem_of_app. left.
    do 4 (apply elem_of_cons; right). apply elem_of_cons. by left.
  - do 2 right. left. eexists. split; [done|]. apply elem_of_app. left.
    do 4 (apply elem_of_cons; right). apply elem_of_cons. by left.
  - do 3 right. split; [done|]. apply elem_of_app. left.
    do 4 (apply elem_of_cons; right). apply elem_of_cons. by left.
Qed.

(** A delivered handler was created by the same call, for the request that
    this call took from the queue. *)
Lemma ashape_deliver_new c evs pc r h :
  ashape c evs pc → EvDeliver r h ∈ evs →
  EvPop r ∈ evs ∧ ∃ a, EvNew r h a ∈ evs.
Proof.
  intros Hs Hin.
  inversion Hs; subst; decompose_list_elem_of; simplify_eq;
    (split; [|eexists]);
    repeat (first [by apply elem_of_cons; left|apply elem_of_cons; right]).
Qed.

Lemma ashape_respond_new c evs pc h resp :
  ashape c evs pc → EvRespond h resp ∈ evs →
  (∃ r a, EvNew r h a ∈ evs ∧ resp = respond_nohandler r)
  ∧ ∀ h', pc ≠ ADone (Return h').
Proof.
  intros Hs Hin.
  inversion Hs; subst; decompose_list_elem_of; simplify_eq.
  split; [|done]. eexists _, _. split; [|done].
  repeat (first [by apply elem_of_cons; left|apply elem_of_cons; right]).
Qed.

Lemma ashape_return_new c evs h :
  ashape c evs (ADone (Return h)) → ∃ r a, EvNew r h a ∈ evs.
Proof.
  intros Hs. inversion Hs; subst. eexists _, _.
  repeat (first [by apply elem_of_cons; left|apply elem_of_cons; right]).
Qed.

(** The handler that [dispatch(r)] receives comes from a call of
    [assert_request] that took [r] from the queue. *)
Lemma handler_origin topt reqs calls sched i r h :
  let s := run (sys_init topt reqs calls) sched in
  (Conn i, EvHandler r h) ∈ trace s →
  ∃ j a, (Asserter j, EvPop r) ∈ trace s
         ∧ (Asserter j, EvNew r h a) ∈ trace s
         ∧ (Asserter j, EvDeliver r h) ∈ trace s.
Proof.
  intros s Hin. subst s.
  destruct (route_handler _ _ (route_shared _ (route_run topt reqs calls sched))
              _ _ _ Hin) as [j Hd].
  destruct (asserter_of_event topt reqs calls sched j _ Hd)
    as (c & pc & Hj & Hs & Hd').
  destruct (ashape_deliver_new _ _ _ _ _ Hs Hd') as [Hp [a Hn]].
  exists j, a. by rewrite <- !elem_of_hist.
Qed.

Lemma handler_exclusive topt reqs calls sched i1 i2 r1 r2 h :
  let s := run (sys_init topt reqs calls) sched in
  NoDup reqs →
  (Conn i1, EvHandler r1 h) ∈ trace s →
  (Conn i2, EvHandler r2 h) ∈ trace s →
  i1 = i2 ∧ r1 = r2.
Proof.
  intros s Hnd H1 H2. subst s.
  destruct (handler_origin topt reqs calls sched _ _ _ H1)
    as (j1 & a1 & _ & Hn1 & _).
  destruct (handler_origin topt reqs calls sched _ _ _ H2)
    as (j2 & a2 & _ & Hn2 & _).
  pose proof (route_created_nodup _ _
                (route_shared _ (route_run topt reqs calls sched))) as Hdup.
  destruct (new_unique _ _ _ _ _ _ _ _ Hdup Hn1 Hn2) as (_ & -> & _).
  split; [|done].
  destruct (conn_of_event topt reqs calls sched _ _ Hnd H1)
    as (r1' & pc1 & Hi1 & Hs1 & He1).
  destruct (conn_of_event topt reqs calls sched _ _ Hnd H2)
    as (r2' & pc2 & Hi2 & Hs2 & He2).
  apply (dshape_handler _ _ _ _ _ Hs1) in He1.
  apply (dshape_handler _ _ _ _ _ Hs2) in He2. subst r1' r2'.
  destruct (invariants_run topt reqs calls sched Hnd) as [_ Hc].
  eapply NoDup_thread; [|exact Hi1|exact Hi2].
  by rewrite (inv_reqs _ _ Hc).
Qed.

(** Who takes a response out of the queue of [h]. *)
Lemma elem_of_taken h resp tr :
  resp ∈ taken h tr ↔ ∃ a r, (a, EvResponse r h resp) ∈ tr.
Proof.
  unfold taken. rewrite list_elem_of_omap. split.
  - intros [[a ev] [Hin Heq]]. unfold is_take in Heq. simpl in Heq.
    destruct ev; try done. case_decide; simplify_eq. eauto.
  - intros (a & r & Hin). exists (a, EvResponse r h resp). split; [done|].
    unfold is_take. simpl. by rewrite decide_True.
Qed.

Lemma elem_of_pushed h resp tr :
  resp ∈ pushed h tr ↔ ∃ a, (a, EvRespond h resp) ∈ tr.
Proof.
  unfold pushed. rewrite list_elem_of_omap. split.
  - intros [[a ev] [Hin Heq]]. unfold is_push in Heq. simpl in Heq.
    destruct ev; try done. case_decide; simplify_eq. eauto.
  - intros (a & Hin). exists (a, EvRespond h resp). split; [done|].
    unfold is_push. simpl. by rewrite decide_True.
Qed.

Lemma elem_of_published r tr :
  r ∈ published tr ↔ ∃ a, (a, EvPublish r) ∈ tr.
Proof.
  unfold published. rewrite list_elem_of_omap. split.
  - intros [[a ev] [Hin Heq]]. unfold is_publish in Heq. simpl in Heq.
    destruct ev; simplify_eq. eauto.
  - intros (a & Hin). by exists (a, EvPublish r).
Qed.

(** The responses taken from [h] are those that one thread took. *)
Lemma taken_hist h a0 tr :
  (∀ a r resp, (a, EvResponse r h resp) ∈ tr → a = a0) →
  taken h tr = omap (λ ev, is_take h (a0, ev)) (hist a0 tr).
Proof.
  induction tr as [|[a ev] tr IH] using rev_ind; intros Hall; [done|].
  unfold taken in *. rewrite hist_snoc, omap_app.
  rewrite IH by (intros a' r' resp' Hin; eapply Hall, elem_of_app; eauto).
  case_decide as Ha.
  - subst a. by rewrite omap_app.
  - rewrite <- (app_nil_r (omap _ (hist a0 tr))) at 2. f_equal.
    simpl. destruct (is_take h (a, ev)) as [resp|] eqn:Ht; [|done].
    unfold is_take in Ht. simpl in Ht. destruct ev; try done.
    case_decide; simplify_eq. destruct Ha.
    eapply Hall. apply elem_of_app. right. apply list_elem_of_singleton. done.
Qed.

Lemma dshape_takes_once r evs pc h a0 :
  dshape r evs pc →
  (length (omap (λ ev, is_take h (a0, ev)) evs) ≤ 1)%nat.
Proof.
  induction 1 as [| | | | | | | | | |evs o Hs IH]; simpl;
    unfold is_take; simpl; repeat case_decide; simpl; try lia.
  rewrite omap_app, length_app. simpl. unfold is_take in IH. simpl in IH. lia.
Qed.

End Reading.

(** ** Further properties of the executions *)

Section Coverage.
Context `{B : HttpServerBase}.
Implicit Types (σ : state) (s : sys) (tr : list (actor * event)).

(** [assert_request] raises [KeyError] only at line 118 and only for a
    request whose [dispatch] call has terminated. *)
Lemma KeyError_stale_run topt reqs calls sched j r :
  NoDup reqs →
  (Asserter j, EvFail (KeyError r))
    ∈ trace (run (sys_init topt reqs calls) sched) →
  ∃ i o, dprocs (run (sys_init topt reqs calls) sched) !! i
         = Some (r, DDone o).
Proof.
  intros Hnd. revert j r.
  induction sched as [|act sched IH] using rev_ind; intros j r0 Hin.
  { by apply elem_of_nil in Hin. }
  rewrite run_snoc in Hin |- *.
  destruct (sys_step_transition (run (sys_init topt reqs calls) sched) act)
    as [Heq|Htr]; [rewrite Heq in Hin |- *; by eauto|].
  pose proof (sys_inv_run topt reqs calls sched) as Hinv.
  destruct (invariants_run topt reqs calls sched Hnd) as [_ Hc].
  remember (sys_step (run (sys_init topt reqs calls) sched) act) as s' eqn:Hs'.
  clear Hs'.
  destruct Htr as [i el r pc ev σ' pc' Hi Hst|j' el c pc ev σ' pc' Hj Hst
                  |h resp σ' Hr|h resp e Hr]; simpl in Hin |- *;
    (apply elem_of_snoc in Hin as [Hin|Heq]; [|simplify_eq]).
  - destruct (IH _ _ Hin) as (i0 & o & Hi0). exists i0, o.
    rewrite list_lookup_insert_ne; [done|].
    intros ->. rewrite Hi in Hi0. by simplify_eq.
  - eauto.
  - pose proof (inv_ashape _ _ _ Hinv _ _ _ Hj) as Hs.
    assert (∃ m, pc = AGot m r0
                 ∧ request_handlers
                     (shared (run (sys_init topt reqs calls) sched)) !! r0
                   = None) as (m & -> & Hnone).
    { destruct pc; simpl in Hst; step_inv Hst; eauto. }
    inversion Hs as [| | | | |m' r' Hm Hh| | | | |]; subst.
    assert (r0 ∈ popped (trace (run (sys_init topt reqs calls) sched))) as Hp.
    { apply (elem_of_popped (Asserter j')). apply elem_of_hist.
      rewrite <- Hh. apply elem_of_cons. right. apply elem_of_cons. by left. }
    assert (r0 ∈ published (trace (run (sys_init topt reqs calls) sched)))
      as [a Ha]%elem_of_published.
    { rewrite (fifo_requests _ _ (fifo_run topt reqs calls sched)).
      apply elem_of_app. by left. }
    destruct (actors_run _ _ _ _ _ Ha) as [i Heq]. simpl in Heq. subst a.
    destruct (conn_of_event topt reqs calls sched _ _ Hnd Ha)
      as (r' & pc0 & Hi & Hd & He).
    pose proof (dshape_publish _ _ _ _ Hd He) as ->.
    pose proof (inv_reg _ _ Hc _ _ _ Hi) as Hreg. unfold reg_ok in Hreg.
    exists i. destruct pc0; simpl in Hreg;
      try (rewrite Hnone in Hreg; by apply is_Some_None in Hreg).
    + inversion Hd as [Hnil| | | | | | | | | |]; subst.
      rewrite <- Hnil in He. by apply elem_of_nil in He.
    + eauto.
  - eauto.
  - eauto.
Qed.

(** X4. [assert_request] ends with [KeyError] only at line 118 and only for a
    request whose [dispatch] call has already terminated (requests handed
    to [dispatch] being distinct objects): while [dispatch(r)] is running,
    [self.request_handlers[r]] is there. *)
Theorem KeyError_only_for_stale_request topt reqs calls sched j c r :
  let s := run (sys_init topt reqs calls) sched in
  NoDup reqs →
  aprocs s !! j = Some (c, ADone (Raise (KeyError r))) →
  (Asserter j, EvPop r) ∈ trace s
  ∧ ∃ i o, dprocs s !! i = Some (r, DDone o).
Proof.
  intros s Hnd Hj. subst s.
  pose proof (inv_ashape _ _ _ (sys_inv_run topt reqs calls sched) _ _ _ Hj)
    as Hs.
  inversion Hs as [| | | | | |m r' Hm Hh| | | |]; subst. split.
  - apply elem_of_hist. rewrite <- Hh.
    apply elem_of_cons. right. apply elem_of_cons. by left.
  - apply (KeyError_stale_run _ _ _ _ j); [done|].
    apply elem_of_hist. rewrite <- Hh.
    do 2 (apply elem_of_cons; right). apply elem_of_cons. by left.
Qed.

(** X5. The four ways in which [dispatch(r)] ends, requests handed to
    [dispatch] being distinct objects: it returns [respond_nohandler(r)]
    after the wait for a handler timed out, it returns the response taken
    from the handler's queue, it raises the [AssertionError] "No response
    for request" after the wait for a response timed out, or, when the
    server was built with a negative timeout, it raises the [ValueError] of
    [Queue.get].  It never ends with [KeyError] or [Full]. *)
Theorem dispatch_outcomes topt reqs calls sched i r o :
  let s := run (sys_init topt reqs calls) sched in
  let t := default default_timeout topt in
  NoDup reqs →
  dprocs s !! i = Some (r, DDone o) →
  (o = Return (respond_nohandler r) ∧ 0 ≤ t
   ∧ (Conn i, EvNoHandler r) ∈ trace s)
  ∨ (∃ h resp, o = Return resp ∧ 0 ≤ t
               ∧ (Conn i, EvResponse r h resp) ∈ trace s)
  ∨ (∃ h, o = Raise (AssertionError (msg_no_response r)) ∧ 0 ≤ t
          ∧ (Conn i, EvNoResponse r h) ∈ trace s)
  ∨ (o = Raise (ValueError msg_bad_timeout) ∧ t < 0).
Proof.
  intros s t Hnd Hi. subst s t.
  destruct (invariants_run topt reqs calls sched Hnd) as [_ Hc].
  pose proof (inv_dshape _ _ Hc _ _ _ Hi) as Hs.
  destruct (dshape_done _ _ _ Hs)
    as [[-> He]|[(h & resp & -> & He)|[(h & -> & He)|[-> He]]]];
    apply elem_of_hist in He;
    pose proof (wait_run _ _ _ _ _ _ He) as Hw; simpl in Hw.
  - left. done.
  - right. left. by exists h, resp.
  - right. right. left. by exists h.
  - right. right. right. done.
Qed.

(** X6. The six ways in which a call of [assert_request] ends.  Without
    taking a request: the [ValueError] of [create_matcher], the
    [ValueError] of [Queue.get] for a negative [timeout], or the
    [AssertionError] "Waiting for request ... timed out".  After taking
    request [r] from the queue: [KeyError(r)], the handler delivered for
    [r] when the matcher (built with the upper-cased method) finds no
    difference, or the [AssertionError] "does not match" when it finds
    one.  It never ends with [Full]. *)
Theorem assert_request_outcomes topt reqs calls sched j c o :
  let s := run (sys_init topt reqs calls) sched in
  let evs := hist (Asserter j) (trace s) in
  aprocs s !! j = Some (c, ADone o) →
  (∃ msg, create_matcher (criteria c) (upper (method c)) = inl msg
          ∧ o = Raise (ValueError msg) ∧ evs = [EvFail (ValueError msg)])
  ∨ ∃ m, create_matcher (criteria c) (upper (method c)) = inr m
    ∧ ((o = Raise (ValueError msg_bad_timeout) ∧ call_timeout c < 0
        ∧ evs = [EvMatcher m; EvFail (ValueError msg_bad_timeout)])
       ∨ (o = Raise (AssertionError (msg_wait_timed_out m))
          ∧ 0 ≤ call_timeout c ∧ evs = [EvMatcher m; EvNoRequest])
       ∨ ∃ r, 0 ≤ call_timeout c
         ∧ ((o = Raise (KeyError r)
             ∧ evs = [EvMatcher m; EvPop r; EvFail (KeyError r)])
            ∨ (∃ h a, o = Return h ∧ difference m r = []
                 ∧ evs = [EvMatcher m; EvPop r; EvNew r h a; EvDeliver r h])
            ∨ (∃ h a,
                 o = Raise (AssertionError
                              (msg_does_not_match m (difference m r)))
                 ∧ difference m r ≠ []
                 ∧ evs = [EvMatcher m; EvPop r; EvNew r h a; EvDeliver r h;
                          EvRespond h (respond_nohandler r)]))).
Proof.
  intros s evs Hj. subst s evs.
  pose proof (inv_ashape _ _ _ (sys_inv_run topt reqs calls sched) _ _ _ Hj)
    as Hs.
  pose proof (second_run _ _ _ _ _ _ _ Hj) as Hw.
  inversion Hs as [|msg Hm Hh| |m Hm Hh|m Hm Hh| |m r Hm Hh|
                   |m r h a Hm Hd Hh| |m r h a Hm Hd Hh]; subst;
    rewrite <- Hh in Hw; simpl in Hw.
  - left. by exists msg.
  - right. exists m. split; [done|]. right. left. done.
  - right. exists m. split; [done|]. left. done.
  - right. exists m. split; [done|]. do 2 right. exists r. split; [done|].
    left. done.
  - right. exists m. split; [done|]. do 2 right. exists r. split; [done|].
    right. left. by exists h, a.
  - right. exists m. split; [done|]. do 2 right. exists r. split; [done|].
    right. right. by exists h, a.
Qed.

(** X7. The request queue is first in, first out and loses nothing: the
    requests that [dispatch] calls have put on it are, in that order, the
    requests that [assert_request] calls have taken followed by the ones
    still waiting in it. *)
Theorem request_queue_fifo topt reqs calls sched :
  let s := run (sys_init topt reqs calls) sched in
  published (trace s)
  = popped (trace s) ++ Queue.items (request_queue (shared s)).
Proof. intros s. apply (fifo_requests _ _ (fifo_run topt reqs calls sched)). Qed.

(** X8. The same for the response queue of every handler: the responses
    pushed into it by [respond_with_response] are, in that order, the
    ones that [dispatch] has taken followed by the ones still in it. *)
Theorem response_queue_fifo topt reqs calls sched h :
  let s := run (sys_init topt reqs calls) sched in
  pushed h (trace s)
  = taken h (trace s)
    ++ default [] (Queue.items <$> handlers (shared s) !! h).
Proof.
  intros s. subst s.
  pose proof (fifo_run topt reqs calls sched) as Hf.
  destruct (handlers (shared (run (sys_init topt reqs calls) sched)) !! h)
    as [q|] eqn:Hq; simpl.
  - by apply (fifo_responses _ _ Hf).
  - by destruct (fifo_unborn _ _ Hf _ Hq) as [-> ->].
Qed.

(** X9. [dispatch] does not withdraw its request: when [dispatch(r)] has
    terminated, [r] is still in the request queue unless a call of
    [assert_request] has taken it. *)
Theorem dispatch_leaves_request_queued topt reqs calls sched i r o :
  let s := run (sys_init topt reqs calls) sched in
  NoDup reqs →
  dprocs s !! i = Some (r, DDone o) →
  r ∈ Queue.items (request_queue (shared s)) ↔ r ∉ popped (trace s).
Proof.
  intros s Hnd Hi. subst s.
  destruct (invariants_run topt reqs calls sched Hnd) as [_ Hc].
  pose proof (inv_dshape _ _ Hc _ _ _ Hi) as Hs.
  apply dshape_done_published, elem_of_hist in Hs.
  assert (r ∈ published (trace (run (sys_init topt reqs calls) sched))) as Hp.
  { apply elem_of_published. eauto. }
  rewrite (fifo_requests _ _ (fifo_run topt reqs calls sched)) in Hp.
  pose proof (inv_nodup _ _ Hc) as Hdup.
  apply NoDup_app in Hdup as (_ & Hdisj & _).
  split.
  - intros Hq Hpop. apply (Hdisj _ Hq). apply elem_of_app. by left.
  - intros Hn. by apply elem_of_app in Hp as [Hp|Hp].
Qed.

(** X10. The dictionary [request_handlers] holds exactly the requests of
    the [dispatch] calls that are between line 139 and line 155: no entry
    outlives its call and no entry is missing while the call runs. *)
Theorem request_handlers_active topt reqs calls sched r :
  let s := run (sys_init topt reqs calls) sched in
  NoDup reqs →
  is_Some (request_handlers (shared s) !! r)
  ↔ ∃ i pc, dprocs s !! i = Some (r, pc) ∧ registered_at pc = true.
Proof.
  intros s Hnd. subst s. split.
  - intros [a Ha]. by apply (dict_owned_run topt reqs calls sched Hnd _ a).
  - intros (i & pc & Hi & Hpc).
    destruct (invariants_run topt reqs calls sched Hnd) as [_ Hc].
    pose proof (inv_reg _ _ Hc _ _ _ Hi) as Hreg. unfold reg_ok in Hreg.
    by rewrite Hpc in Hreg.
Qed.

(** X11. Routing: the handler that [dispatch(r)] receives was created by
    a call of [assert_request] that took this very request [r] from the
    queue, and was delivered by that call. *)
Theorem handler_from_assert_request topt reqs calls sched i r h :
  let s := run (sys_init topt reqs calls) sched in
  (Conn i, EvHandler r h) ∈ trace s →
  ∃ j a, (Asserter j, EvPop r) ∈ trace s
         ∧ (Asserter j, EvNew r h a) ∈ trace s
         ∧ (Asserter j, EvDeliver r h) ∈ trace s.
Proof. apply handler_origin. Qed.

(** X12. A handler serves one request: two [dispatch] calls never receive
    the same handler (requests handed to [dispatch] being distinct
    objects). *)
Theorem handler_serves_one_dispatch topt reqs calls sched i1 i2 r1 r2 h :
  let s := run (sys_init topt reqs calls) sched in
  NoDup reqs →
  (Conn i1, EvHandler r1 h) ∈ trace s →
  (Conn i2, EvHandler r2 h) ∈ trace s →
  i1 = i2 ∧ r1 = r2.
Proof. apply handler_exclusive. Qed.

(** All the responses taken from the queue of [h] were taken by one
    [dispatch] call. *)
Lemma takers_agree topt reqs calls sched h a1 a2 r1 r2 resp1 resp2 :
  let s := run (sys_init topt reqs calls) sched in
  NoDup reqs →
  (a1, EvResponse r1 h resp1) ∈ trace s →
  (a2, EvResponse r2 h resp2) ∈ trace s →
  a1 = a2.
Proof.
  intros s Hnd H1 H2. subst s.
  destruct (actors_run _ _ _ _ _ H1) as [i1 Heq]. simpl in Heq. subst a1.
  destruct (actors_run _ _ _ _ _ H2) as [i2 Heq]. simpl in Heq. subst a2.
  destruct (conn_of_event topt reqs calls sched _ _ Hnd H1)
    as (r1' & pc1 & Hi1 & Hs1 & He1).
  destruct (conn_of_event topt reqs calls sched _ _ Hnd H2)
    as (r2' & pc2 & Hi2 & Hs2 & He2).
  destruct (dshape_response _ _ _ _ _ _ Hs1 He1) as (-> & Hh1 & _).
  destruct (dshape_response _ _ _ _ _ _ Hs2 He2) as (-> & Hh2 & _).
  apply elem_of_hist in Hh1, Hh2.
  by destruct (handler_exclusive topt reqs calls sched _ _ _ _ _ Hnd Hh1 Hh2)
    as [-> _].
Qed.

(** X13. A handler answers at most once: at most one response is ever
    taken from its queue, and it is the first one that was pushed; a
    second response stays behind. *)
Theorem handler_answers_once topt reqs calls sched h :
  let s := run (sys_init topt reqs calls) sched in
  NoDup reqs →
  taken h (trace s) = []
  ∨ ∃ resp, taken h (trace s) = [resp]
            ∧ head (pushed h (trace s)) = Some resp.
Proof.
  intros s Hnd. subst s.
  set (s := run (sys_init topt reqs calls) sched).
  destruct (taken h (trace s)) as [|resp l] eqn:Ht; [by left|right].
  assert (resp ∈ taken h (trace s)) as (a & r & Hin)%elem_of_taken.
  { rewrite Ht. apply elem_of_cons. by left. }
  assert (length (taken h (trace s)) ≤ 1)%nat as Hlen.
  { rewrite (taken_hist h a).
    - destruct (actors_run _ _ _ _ _ Hin) as [i Heq]. simpl in Heq. subst a.
      destruct (conn_of_event topt reqs calls sched _ _ Hnd Hin)
        as (r' & pc & _ & Hs & _).
      by eapply dshape_takes_once.
    - intros a' r' resp' Hin'. symmetry.
      by eapply (takers_agree topt reqs calls sched h a a'). }
  rewrite Ht in Hlen. destruct l; [|simpl in Hlen; lia].
  exists resp. split; [done|].
  pose proof (fifo_run topt reqs calls sched) as Hf. fold s in Hf.
  destruct (handlers (shared s) !! h) as [q|] eqn:Hq.
  - rewrite (fifo_responses _ _ Hf _ _ Hq), Ht. done.
  - destruct (fifo_unborn _ _ Hf _ Hq) as [_ Hn]. congruence.
Qed.

(** X14. A late response is lost: when the wait of [dispatch] for a
    response of handler [h] has timed out, no [dispatch] call ever takes a
    response from [h]; whatever is pushed into [h] stays in its queue. *)
Theorem late_response_stays_queued topt reqs calls sched i r h q :
  let s := run (sys_init topt reqs calls) sched in
  NoDup reqs →
  (Conn i, EvNoResponse r h) ∈ trace s →
  handlers (shared s) !! h = Some q →
  taken h (trace s) = [] ∧ Queue.items q = pushed h (trace s).
Proof.
  intros s Hnd Hin Hq. subst s.
  set (s := run (sys_init topt reqs calls) sched) in *.
  assert (taken h (trace s) = []) as Ht.
  { destruct (taken h (trace s)) as [|resp l] eqn:Ht; [done|exfalso].
    assert (resp ∈ taken h (trace s)) as (a & r' & Hin')%elem_of_taken.
    { rewrite Ht. apply elem_of_cons. by left. }
    destruct (actors_run _ _ _ _ _ Hin') as [i' Heq]. simpl in Heq. subst a.
    destruct (conn_of_event topt reqs calls sched _ _ Hnd Hin')
      as (r1 & pc1 & Hi1 & Hs1 & He1).
    destruct (dshape_response _ _ _ _ _ _ Hs1 He1) as (-> & Hh1 & _).
    destruct (conn_of_event topt reqs calls sched _ _ Hnd Hin)
      as (r2 & pc2 & Hi2 & Hs2 & He2).
    destruct (dshape_no_response_handler _ _ _ _ _ Hs2 He2) as [Hh2 Hno].
    apply elem_of_hist in Hh1, Hh2.
    destruct (handler_exclusive topt reqs calls sched _ _ _ _ _ Hnd Hh1 Hh2)
      as [-> ->].
    by eapply Hno. }
  split; [done|].
  pose proof (fifo_run topt reqs calls sched) as Hf. fold s in Hf.
  by rewrite (fifo_responses _ _ Hf _ _ Hq), Ht.
Qed.

(** X15. Where the result of [dispatch] comes from: a response that
    [dispatch(r)] returns is [respond_nohandler(r)], or it was pushed
    with [respond_with_response] into a handler that a call of
    [assert_request] created for [r] after taking [r] from the queue. *)
Theorem returned_response_origin topt reqs calls sched i r resp :
  let s := run (sys_init topt reqs calls) sched in
  NoDup reqs →
  dprocs s !! i = Some (r, DDone (Return resp)) →
  resp = respond_nohandler r
  ∨ ∃ h j a, (a, EvRespond h resp) ∈ trace s
             ∧ (Asserter j, EvPop r) ∈ trace s
             ∧ (Asserter j, EvDeliver r h) ∈ trace s.
Proof.
  intros s Hnd Hi. subst s.
  destruct (invariants_run topt reqs calls sched Hnd) as [_ Hc].
  pose proof (inv_dshape _ _ Hc _ _ _ Hi) as Hs.
  destruct (dshape_done _ _ _ Hs)
    as [[Ho _]|[(h & resp' & Ho & He)|[(h & Ho & _)|[Ho _]]]]; simplify_eq.
  { by left. }
  right.
  destruct (dshape_response _ _ _ _ _ _ Hs He) as (_ & Hh & _).
  apply elem_of_hist in He, Hh.
  destruct (handler_origin topt reqs calls sched _ _ _ Hh)
    as (j & a & Hp & _ & Hd).
  assert (resp' ∈ pushed h (trace (run (sys_init topt reqs calls) sched)))
    as [a' Ha']%elem_of_pushed.
  { pose proof (fifo_run topt reqs calls sched) as Hf.
    assert (resp' ∈ taken h (trace (run (sys_init topt reqs calls) sched)))
      as Ht by (apply elem_of_taken; eauto).
    destruct (handlers (shared (run (sys_init topt reqs calls) sched)) !! h)
      as [q|] eqn:Hq.
    - rewrite (fifo_responses _ _ Hf _ _ Hq). apply elem_of_app. by left.
    - destruct (fifo_unborn _ _ Hf _ Hq) as [_ Hn]. rewrite Hn in Ht.
      by apply elem_of_nil in Ht. }
  by exists h, j, a'.
Qed.

(** X16. [assert_request] pushes nothing into a handler that it returns:
    every response in the queue of a returned handler was pushed by the
    code that holds the handler. *)
Theorem returned_handler_fed_by_caller topt reqs calls sched j c h a resp :
  let s := run (sys_init topt reqs calls) sched in
  aprocs s !! j = Some (c, ADone (Return h)) →
  (a, EvRespond h resp) ∈ trace s →
  a = Caller.
Proof.
  intros s Hj Hin. subst s.
  destruct (actors_run _ _ _ _ _ Hin) as [Heq|[j' Heq]]; simpl in Heq;
    [done|subst a; exfalso].
  destruct (asserter_of_event topt reqs calls sched _ _ Hin)
    as (c' & pc' & Hj' & Hs' & He').
  destruct (ashape_respond_new _ _ _ _ _ Hs' He') as [(r & a & Hn & _) Hpc].
  pose proof (inv_ashape _ _ _ (sys_inv_run topt reqs calls sched) _ _ _ Hj)
    as Hs.
  destruct (ashape_return_new _ _ _ Hs) as (r0 & a0 & Hn0).
  apply elem_of_hist in Hn, Hn0.
  pose proof (route_created_nodup _ _
                (route_shared _ (route_run topt reqs calls sched))) as Hdup.
  destruct (new_unique _ _ _ _ _ _ _ _ Hdup Hn Hn0) as ([= ->] & _ & _).
  rewrite Hj in Hj'. simplify_eq. by eapply Hpc.
Qed.

(** X17. The round trip of a response: while [dispatch(r)] waits on the
    empty queue of its handler, a response pushed with
    [respond_with_response] is what [dispatch(r)] returns, whatever time
    it has waited. *)
Theorem respond_reaches_dispatch topt reqs calls sched i r h q resp el el' :
  let s := run (sys_init topt reqs calls) sched in
  NoDup reqs →
  0 ≤ default default_timeout topt →
  dprocs s !! i = Some (r, DGetResponse h) →
  handlers (shared s) !! h = Some q →
  Queue.items q = [] →
  dprocs (run s [ActRespond h resp; ActDispatch i el; ActDispatch i el'])
    !! i = Some (r, DDone (Return resp)).
Proof.
  intros s Hnd Ht Hi Hq Hempty. subst s.
  pose proof (sys_inv_run topt reqs calls sched) as Hinv.
  set (s := run (sys_init topt reqs calls) sched) in *.
  pose proof (respond_total h resp _ q (inv_unbounded _ _ _ Hinv) Hq) as Hr.
  rewrite Hempty in Hr. simpl in Hr.
  assert ((timeout (shared s) <? 0) = false) as Hto.
  { rewrite (inv_timeout _ _ _ Hinv). lia. }
  assert ((h < length (handlers (shared s)))%nat) as Hlen
    by by eapply lookup_lt_Some.
  assert (dprocs (run s [ActRespond h resp; ActDispatch i el]) !! i
          = Some (r, DFinally (Return resp))) as H2.
  { simpl. rewrite Hr. simpl. rewrite Hi. simpl.
    rewrite list_lookup_insert_eq by done. simpl.
    unfold Queue.get. simpl. rewrite Hto. simpl.
    apply list_lookup_insert_eq. by eapply lookup_lt_Some. }
  change (run s [ActRespond h resp; ActDispatch i el; ActDispatch i el'])
    with (sys_step (run s [ActRespond h resp; ActDispatch i el])
                   (ActDispatch i el')).
  assert (conn_inv reqs (run s [ActRespond h resp; ActDispatch i el])) as Hc.
  { subst s. rewrite <- run_app. by apply invariants_run. }
  revert H2 Hc. generalize (run s [ActRespond h resp; ActDispatch i el]).
  intros s2 H2 Hc.
  pose proof (inv_reg _ _ Hc _ _ _ H2) as [a Ha].
  simpl. rewrite H2. simpl. rewrite Ha. simpl.
  apply list_lookup_insert_eq. by eapply lookup_lt_Some.
Qed.

End Coverage.

(** * The concrete server *)

Import Sample.

Lemma sample_requests_distinct : NoDup [0%nat; 1%nat].
Proof.
  apply NoDup_cons. split; [|apply NoDup_singleton].
  by intros ?%list_elem_of_singleton.
Defined.

(** C1. The request is dispatched, nobody asserts it within the server
    timeout, [dispatch] answers with the no-handler response and removes the
    entry; the request is still in the queue, the next [assert_request] takes
    it and ends with [KeyError], raised by [self.request_handlers[request]]. *)
Example stale_request_raises_KeyError :
  dprocs (run s0 sched_stale) !! 0%nat
  = Some (0%nat, DDone (Return "500 No handler found for request /login"))
  ∧ aprocs (run s0 sched_stale) !! 0%nat
    = Some (login, ADone (Raise (KeyError 0%nat)))
  ∧ hist (Asserter 0) (trace (run s0 sched_stale))
    = [EvMatcher ("/login", "POST"); EvPop 0%nat; EvFail (KeyError 0%nat)].
Proof. split_and!; vm_compute; reflexivity. Qed.

(** C2 as stated fails: a handler is assigned, no response arrives, and
    [dispatch] ends by raising; it returns no response. *)
Lemma dispatch_no_response_counterexample :
  (Conn 0, EvHandler 0%nat 0%nat) ∈ trace (run s0 sched_no_response)
  ∧ (Conn 0, EvNoResponse 0%nat 0%nat) ∈ trace (run s0 sched_no_response)
  ∧ assertions (shared (run s0 sched_no_response))
    = [AssertionError "No response for request: /login"]
  ∧ dprocs (run s0 sched_no_response) !! 0%nat
    = Some (0%nat,
            DDone (Raise (AssertionError "No response for request: /login")))
  ∧ ¬ ∃ resp : Response,
        dprocs (run s0 sched_no_response) !! 0%nat
        = Some (0%nat, DDone (Return resp)).
Proof.
  split_and!.
  - apply (list_elem_of_lookup_2 _ 7%nat). vm_compute. reflexivity.
  - apply (list_elem_of_lookup_2 _ 8%nat). vm_compute. reflexivity.
  - vm_compute. reflexivity.
  - vm_compute. reflexivity.
  - intros [resp Hresp]. vm_compute in Hresp. discriminate Hresp.
Qed.

Lemma dispatch_no_response_raises_witness :
  AssertionError ("No response for request: " +:+ str_request 0%nat)
    ∈ assertions (shared (run s0 sched_no_response)).
Proof.
  refine (proj1 (dispatch_no_response_raises None [0%nat; 1%nat] [login; status]
                   sched_no_response 0 0%nat
                   (DDone (Raise (AssertionError
                                    "No response for request: /login")))
                   0%nat sample_requests_distinct _ _)).
  - vm_compute. reflexivity.
  - apply (list_elem_of_lookup_2 _ 8%nat). vm_compute. reflexivity.
Defined.

Lemma dispatch_removes_entry_witness :
  request_handlers (shared (run s0 sched_answered)) !! 0%nat = None.
Proof.
  refine (proj1 (dispatch_removes_entry None [0%nat; 1%nat] [login; status]
                   sched_answered 0 0%nat (Return "200 ok")
                   sample_requests_distinct _)).
  vm_compute. reflexivity.
Defined.

Lemma at_most_once_witness :
  NoDup (popped (trace (run s0 sched_two)))
  ∧ popped (trace (run s0 sched_two)) = [0%nat; 1%nat].
Proof.
  split; [|vm_compute; reflexivity].
  exact (proj1 (at_most_once None [0%nat; 1%nat] [login; status] sched_two
                  sample_requests_distinct)).
Defined.

(** C5 as stated fails: [dispatch(0)] registered its queue before it
    published the request, nobody asserted within the server timeout and
    the call has returned; the request is still in the request queue, where
    the test thread can take it, and the dictionary has no entry for it. *)
Lemma register_before_publish_counterexample :
  dprocs (run s0 sched_gave_up) !! 0%nat
  = Some (0%nat, DDone (Return "500 No handler found for request /login"))
  ∧ hist (Conn 0) (trace (run s0 sched_gave_up))
    = [EvRegister 0%nat 0%nat; EvPublish 0%nat; EvLookup 0%nat 0%nat;
       EvNoHandler 0%nat; EvDeregister 0%nat]
  ∧ 0%nat ∈ Queue.items (request_queue (shared (run s0 sched_gave_up)))
  ∧ request_handlers (shared (run s0 sched_gave_up)) !! 0%nat = None
  ∧ ¬ (∀ r : Request,
          r ∈ Queue.items (request_queue (shared (run s0 sched_gave_up))) →
          is_Some (request_handlers (shared (run s0 sched_gave_up)) !! r)).
Proof.
  split_and!.
  - vm_compute. reflexivity.
  - vm_compute. reflexivity.
  - apply (list_elem_of_lookup_2 _ 0%nat). vm_compute. reflexivity.
  - vm_compute. reflexivity.
  - intros Hall. destruct (Hall 0%nat) as [a Ha].
    + apply (list_elem_of_lookup_2 _ 0%nat). vm_compute. reflexivity.
    + vm_compute in Ha. discriminate Ha.
Qed.

Lemma register_before_publish_witness :
  ∃ a, (Conn 1, EvRegister 1%nat a) ∈ take 1 (trace (run s0 sched_mismatch)).
Proof.
  refine (proj1 (register_before_publish None [0%nat; 1%nat] [login; status]
                   sched_mismatch sample_requests_distinct)
            (take 1 (trace (run s0 sched_mismatch)))
            (drop 2 (trace (run s0 sched_mismatch))) 1%nat 1%nat _).
  vm_compute. reflexivity.
Defined.

Lemma mismatched_request_stays_consumed_witness :
  (1%nat ∉ Queue.items
             (request_queue
                (shared (run (run s0 (arrive 1 ++ assert_now 0))
                             [ActDispatch 1 0; ActDispatch 1 0; ActDispatch 1 0]))))
  ∧ (∀ j', (Asserter j', EvPop 1%nat)
             ∈ trace (run (run s0 (arrive 1 ++ assert_now 0))
                          [ActDispatch 1 0; ActDispatch 1 0; ActDispatch 1 0]) →
           j' = 0%nat)
  ∧ NoDup (popped (trace (run (run s0 (arrive 1 ++ assert_now 0))
                              [ActDispatch 1 0; ActDispatch 1 0; ActDispatch 1 0]))).
Proof.
  refine (mismatched_request_stays_consumed None [0%nat; 1%nat] [login; status]
            (arrive 1 ++ assert_now 0)
            [ActDispatch 1 0; ActDispatch 1 0; ActDispatch 1 0]
            0%nat ("/login", "POST") 1%nat sample_requests_distinct _ _ _).
  - apply (list_elem_of_lookup_2 _ 3%nat). vm_compute. reflexivity.
  - apply (list_elem_of_lookup_2 _ 4%nat). vm_compute. reflexivity.
  - vm_compute. discriminate.
Defined.

(** C6. [dispatch(1)] has given up and removed its entry; the request is
    still in the queue.  A call of [assert_request] for [/login] takes it,
    the matcher finds a difference, the handler is created, and line 118
    raises [KeyError]: line 121 is not reached, so nothing is pushed into
    the handler, and the call ends with [KeyError] where the claim has the
    does-not-match error. *)
Example stale_mismatch_raises_KeyError :
  dprocs (run s0 sched_stale_mismatch) !! 1%nat
  = Some (1%nat, DDone (Return "500 No handler found for request /status"))
  ∧ hist (Asserter 0) (trace (run s0 sched_stale_mismatch))
    = [EvMatcher ("/login", "POST"); EvPop 1%nat; EvFail (KeyError 1%nat)]
  ∧ difference ("/login", "POST") 1%nat = ["uri"]
  ∧ aprocs (run s0 sched_stale_mismatch) !! 0%nat
    = Some (login, ADone (Raise (KeyError 1%nat)))
  ∧ handlers (shared (run s0 sched_stale_mismatch)) = [Queue.new]
  ∧ pushed 0%nat (trace (run s0 sched_stale_mismatch)) = []
  ∧ aprocs (run s0 sched_stale_mismatch) !! 0%nat
    ≠ Some (login,
            ADone (Raise (AssertionError
                            (msg_does_not_match ("/login", "POST") ["uri"])))).
Proof. split_and!; vm_compute; (reflexivity || discriminate). Qed.

Lemma mismatch_pushes_then_raises_witness :
  aprocs (run s0 sched_mismatch) !! 0%nat
  = Some (login,
          ADone (Raise (AssertionError "Request POST /login does not match: uri")))
  ∧ ∃ t1 t2,
      trace (run s0 sched_mismatch)
      = t1 ++ (Asserter 0,
               EvRespond 0%nat "500 No handler found for request /status") :: t2
      ∧ (Asserter 0, EvDeliver 1%nat 0%nat) ∈ t1
      ∧ hist (Asserter 0) t2 = [].
Proof.
  split; [vm_compute; reflexivity|].
  destruct (mismatch_pushes_then_raises None [0%nat; 1%nat] [login; status]
              sched_mismatch 0%nat login
              (ADone (Raise (AssertionError
                               "Request POST /login does not match: uri")))
              ("/login", "POST") 1%nat 0%nat) as [[Hpc _]|[_ Hpush]].
  - vm_compute. reflexivity.
  - apply (list_elem_of_lookup_2 _ 3%nat). vm_compute. reflexivity.
  - apply (list_elem_of_lookup_2 _ 6%nat). vm_compute. reflexivity.
  - vm_compute. discriminate.
  - discriminate Hpc.
  - exact Hpush.
Defined.


Lemma respond_never_blocks_witness :
  ∃ σ', respond_with_response 0%nat "200 third" (shared (run s0 sched_late))
        = Some (Return σ')
        ∧ handlers σ' !! 0%nat
          = Some (Queue.mk 0 ["200 ok"; "200 again"; "200 third"]).
Proof.
  eexists. split.
  - refine (respond_never_blocks None [0%nat; 1%nat] [login; status] sched_late
              0%nat (Queue.mk 0 ["200 ok"; "200 again"]) "200 third" _).
    vm_compute. reflexivity.
  - vm_compute. reflexivity.
Defined.

Lemma timeouts_configured_witness :
  timeout (shared (run s0 sched_no_response)) = 30
  ∧ dispatch_step 29 (shared (run s0 (arrive 0))) 0%nat (DGetHandler 0%nat) = None
  ∧ dispatch_step 30 (shared (run s0 (arrive 0))) 0%nat (DGetHandler 0%nat)
    = Some (EvNoHandler 0%nat, shared (run s0 (arrive 0)),
            DFinally (Return (respond_nohandler 0%nat))).
Proof.
  split_and!.
  - exact (proj1 (timeouts_configured None [0%nat; 1%nat] [login; status]
                    sched_no_response)).
  - vm_compute. reflexivity.
  - vm_compute. reflexivity.
Defined.

(** The three ways out of [dispatch], each leaving the dictionary empty. *)
Example dispatch_exit_response :
  dprocs (run s0 sched_answered) !! 0%nat = Some (0%nat, DDone (Return "200 ok"))
  ∧ request_handlers (shared (run s0 sched_answered)) = ∅.
Proof. split; vm_compute; reflexivity. Qed.

Example dispatch_exit_no_handler :
  dprocs (run s0 sched_stale) !! 0%nat
  = Some (0%nat, DDone (Return "500 No handler found for request /login"))
  ∧ request_handlers (shared (run s0 sched_stale)) = ∅.
Proof. split; vm_compute; reflexivity. Qed.

Example dispatch_exit_no_response :
  dprocs (run s0 sched_no_response) !! 0%nat
  = Some (0%nat,
          DDone (Raise (AssertionError "No response for request: /login")))
  ∧ request_handlers (shared (run s0 sched_no_response)) = ∅.
Proof. split; vm_compute; reflexivity. Qed.

(** A mismatch releases the connection with the no-handler response. *)
Example mismatch_releases_dispatch :
  dprocs (run s0 sched_mismatch) !! 1%nat
  = Some (1%nat, DDone (Return "500 No handler found for request /status")).
Proof. vm_compute. reflexivity. Qed.


(** ** Instances of the further properties *)

Lemma dispatch_terminates_witness :
  ∃ k o,
    (k ≤ 6)%nat
    ∧ dprocs (run (run (sys_init None [0%nat; 1%nat] [login; status]) (arrive 0))
                  (replicate k (ActDispatch 0 (default default_timeout None))))
        !! 0%nat = Some (0%nat, DDone o).
Proof.
  refine (dispatch_terminates None [0%nat; 1%nat] [login; status] (arrive 0)
            0 0%nat (DGetHandler 0%nat) _).
  vm_compute. reflexivity.
Defined.

Lemma assert_request_terminates_witness :
  ∃ k o,
    (k ≤ 5)%nat
    ∧ aprocs (run (run (sys_init None [0%nat; 1%nat] [login; status])
                       [ActAssert 1 0])
                  (replicate k (ActAssert 1 (call_timeout status))))
        !! 1%nat = Some (status, ADone o).
Proof.
  refine (assert_request_terminates None [0%nat; 1%nat] [login; status]
            [ActAssert 1 0] 1 status (AWait ("/status", "GET")) _).
  vm_compute. reflexivity.
Defined.

Lemma stale_request_KeyError_witness :
  assert_request_step 0
    (shared (run s0 (arrive 0 ++ [ActDispatch 0 30; ActDispatch 0 0]
                     ++ [ActAssert 0 0; ActAssert 0 0])))
    login (AGot ("/login", "POST") 0%nat)
  = Some (EvFail (KeyError 0%nat),
          (BlockingRequestHandler_init
             (shared (run s0 (arrive 0 ++ [ActDispatch 0 30; ActDispatch 0 0]
                              ++ [ActAssert 0 0; ActAssert 0 0])))).2,
          ADone (Raise (KeyError 0%nat))).
Proof.
  refine (stale_request_KeyError None [0%nat; 1%nat] [login; status]
            (arrive 0 ++ [ActDispatch 0 30; ActDispatch 0 0]
             ++ [ActAssert 0 0; ActAssert 0 0])
            0 0 0%nat (Return "500 No handler found for request /login")
            login ("/login", "POST") 0 sample_requests_distinct _ _).
  - vm_compute. reflexivity.
  - vm_compute. reflexivity.
Defined.

Lemma KeyError_only_for_stale_request_witness :
  (Asserter 0, EvPop 0%nat) ∈ trace (run s0 sched_stale)
  ∧ ∃ i o, dprocs (run s0 sched_stale) !! i = Some (0%nat, DDone o).
Proof.
  refine (KeyError_only_for_stale_request None [0%nat; 1%nat] [login; status]
            sched_stale 0 login 0%nat sample_requests_distinct _).
  vm_compute. reflexivity.
Defined.

Lemma dispatch_outcomes_witness :
  (Return "200 ok" = Return (respond_nohandler 0%nat) ∧ 0 ≤ 30
   ∧ (Conn 0, EvNoHandler 0%nat) ∈ trace (run s0 sched_answered))
  ∨ (∃ h resp, Return "200 ok" = Return resp ∧ 0 ≤ 30
               ∧ (Conn 0, EvResponse 0%nat h resp)
                   ∈ trace (run s0 sched_answered))
  ∨ (∃ h, Return "200 ok" = Raise (AssertionError (msg_no_response 0%nat))
          ∧ 0 ≤ 30
          ∧ (Conn 0, EvNoResponse 0%nat h) ∈ trace (run s0 sched_answered))
  ∨ (Return "200 ok" = Raise (ValueError msg_bad_timeout) ∧ 30 < 0).
Proof.
  refine (dispatch_outcomes None [0%nat; 1%nat] [login; status] sched_answered
            0 0%nat (Return "200 ok") sample_requests_distinct _).
  vm_compute. reflexivity.
Defined.

Lemma assert_request_outcomes_witness :
  ∃ o, aprocs (run s0 sched_mismatch) !! 0%nat = Some (login, ADone o)
       ∧ ∃ m, create_matcher (criteria login) (upper (method login)) = inr m.
Proof.
  exists (Raise (AssertionError "Request POST /login does not match: uri")).
  split; [vm_compute; reflexivity|].
  destruct (assert_request_outcomes None [0%nat; 1%nat] [login; status]
              sched_mismatch 0 login
              (Raise (AssertionError "Request POST /login does not match: uri")))
    as [(msg & Hm & _)|(m & Hm & _)].
  - vm_compute. reflexivity.
  - vm_compute in Hm. discriminate Hm.
  - exists m. exact Hm.
Defined.

Lemma dispatch_leaves_request_queued_witness :
  0%nat ∈ Queue.items
            (request_queue
               (shared (run s0 (arrive 0 ++ [ActDispatch 0 30; ActDispatch 0 0]))))
  ↔ (0%nat ∉ popped
               (trace (run s0 (arrive 0 ++ [ActDispatch 0 30; ActDispatch 0 0])))).
Proof.
  refine (dispatch_leaves_request_queued None [0%nat; 1%nat] [login; status]
            (arrive 0 ++ [ActDispatch 0 30; ActDispatch 0 0]) 0 0%nat
            (Return "500 No handler found for request /login")
            sample_requests_distinct _).
  vm_compute. reflexivity.
Defined.

Lemma request_handlers_active_witness :
  is_Some (request_handlers (shared (run s0 (arrive 0))) !! 0%nat)
  ↔ ∃ i pc, dprocs (run s0 (arrive 0)) !! i = Some (0%nat, pc)
            ∧ registered_at pc = true.
Proof.
  exact (request_handlers_active None [0%nat; 1%nat] [login; status]
           (arrive 0) 0%nat sample_requests_distinct).
Defined.

Lemma handler_from_assert_request_witness :
  ∃ j a, (Asserter j, EvPop 0%nat) ∈ trace (run s0 sched_answered)
         ∧ (Asserter j, EvNew 0%nat 0%nat a) ∈ trace (run s0 sched_answered)
         ∧ (Asserter j, EvDeliver 0%nat 0%nat) ∈ trace (run s0 sched_answered).
Proof.
  refine (handler_from_assert_request None [0%nat; 1%nat] [login; status]
            sched_answered 0 0%nat 0%nat _).
  apply (list_elem_of_lookup_2 _ 8%nat). vm_compute. reflexivity.
Defined.

Lemma handler_serves_one_dispatch_witness :
  0%nat = 0%nat ∧ 0%nat = 0%nat.
Proof.
  refine (handler_serves_one_dispatch None [0%nat; 1%nat] [login; status]
            sched_answered 0 0 0%nat 0%nat 0%nat sample_requests_distinct _ _).
  - apply (list_elem_of_lookup_2 _ 8%nat). vm_compute. reflexivity.
  - apply (list_elem_of_lookup_2 _ 8%nat). vm_compute. reflexivity.
Defined.

Lemma handler_answers_once_witness :
  taken 0%nat (trace (run s0 sched_answered)) = []
  ∨ ∃ resp, taken 0%nat (trace (run s0 sched_answered)) = [resp]
            ∧ head (pushed 0%nat (trace (run s0 sched_answered))) = Some resp.
Proof.
  exact (handler_answers_once None [0%nat; 1%nat] [login; status]
           sched_answered 0%nat sample_requests_distinct).
Defined.

Lemma late_response_stays_queued_witness :
  taken 0%nat (trace (run s0 sched_late)) = []
  ∧ ["200 ok"; "200 again"] = pushed 0%nat (trace (run s0 sched_late)).
Proof.
  refine (late_response_stays_queued None [0%nat; 1%nat] [login; status]
            sched_late 0 0%nat 0%nat (Queue.mk 0 ["200 ok"; "200 again"])
            sample_requests_distinct _ _).
  - apply (list_elem_of_lookup_2 _ 8%nat). vm_compute. reflexivity.
  - vm_compute. reflexivity.
Defined.

Lemma returned_response_origin_witness :
  "200 ok" = respond_nohandler 0%nat
  ∨ ∃ h j a, (a, EvRespond h "200 ok") ∈ trace (run s0 sched_answered)
             ∧ (Asserter j, EvPop 0%nat) ∈ trace (run s0 sched_answered)
             ∧ (Asserter j, EvDeliver 0%nat h) ∈ trace (run s0 sched_answered).
Proof.
  refine (returned_response_origin None [0%nat; 1%nat] [login; status]
            sched_answered 0 0%nat "200 ok" sample_requests_distinct _).
  vm_compute. reflexivity.
Defined.

Lemma returned_handler_fed_by_caller_witness : Caller = Caller.
Proof.
  refine (returned_handler_fed_by_caller None [0%nat; 1%nat] [login; status]
            sched_answered 0 login 0%nat Caller "200 ok" _ _).
  - vm_compute. reflexivity.
  - apply (list_elem_of_lookup_2 _ 7%nat). vm_compute. reflexivity.
Defined.

Lemma respond_reaches_dispatch_witness :
  dprocs (run (run s0 (arrive 0 ++ assert_now 0 ++ [ActDispatch 0 0]))
              [ActRespond 0%nat "200 ok"; ActDispatch 0 1; ActDispatch 0 0])
    !! 0%nat = Some (0%nat, DDone (Return "200 ok")).
Proof.
  refine (respond_reaches_dispatch None [0%nat; 1%nat] [login; status]
            (arrive 0 ++ assert_now 0 ++ [ActDispatch 0 0]) 0 0%nat 0%nat
            Queue.new "200 ok" 1 0 sample_requests_distinct _ _ _ _).
  - vm_compute. discriminate.
  - vm_compute. reflexivity.
  - vm_compute. reflexivity.
  - reflexivity.
Defined.
